(** * Cycloidal drive generator: kinematic and geometric core of [main.js]

    The development embeds these pieces of [main.js]:
    - [getCycloidPoint], the equidistant epitrochoid profile;
    - the kinematics block of [draw], which places the pin ring and the disc
      from the input shaft angle under the two conventions ['STD'] and ['RV'];
    - the derived read-outs of [updateParams] (ratio, direction, K1, warning);
    - the rest of [draw]: the pin loop, the sampled outline, the canvas
      transforms under which both are drawn, and the frame loop;
    - the viewport: [resize], [resetView], the wheel and mouse listeners and
      [updateScaleBar].
    The canvas is taken by what its calls mean: [ctx.rotate] and
    [ctx.translate] compose plane maps, [requestAnimationFrame] queues a
    callback for the next frame.

    Numbers.  A JavaScript Number is taken here as a real number: [+], [-],
    [*], [/], [Math.sqrt], [Math.cos] and [Math.sin] are the operations of the
    Standard Library's reals, and the decimal literals [1e-6], [1.1], [0.98]
    and [0.02] are the rationals they denote.  Rounding, overflow and NaN of
    IEEE doubles are outside this model; in particular [a / 0] is whatever
    the reals' total division makes of it, so statements that divide are to
    be read at nonzero divisors, which valid parameters guarantee in [draw]
    and [updateParams] and which the guard guarantees in [getCycloidPoint]
    (see [getCycloidPoint_checked]).  [params.Zp] comes from [parseInt],
    hence it is an integer; it is kept in [Z] and injected with [IZR] where
    the code uses it in arithmetic. *)

From Stdlib Require Import Reals Lra Lia ZArith String List DecimalString.
Import ListNotations.

Open Scope R_scope.

(** The type of JavaScript Numbers in this model.  A notation, so that the
    source's parameter name [R] can be bound without hiding the type. *)
Abbreviation Number := Rdefinitions.R (only parsing).

(** ** Data *)

(** [{x: ..., y: ...}] object literals. *)
Record Point : Type := mkPoint { x : Number; y : Number }.

(** [let params = { R: 80, Zp: 12, rp: 5, e: 4 }]. *)
Module Params.
Record t : Type := mk { R : Number; Zp : Z; rp : Number; e : Number }.
End Params.

(** The globals read and written by [updateParams], [setMode] and [draw].
    [kinematics] is a string, compared against ['STD'] with [===]. *)
Record State : Type := mkState {
  params : Params.t;
  kinematics : string;
  rotationAngle : Number
}.

(** [let params = ...; let kinematics = 'STD'; let rotationAngle = 0]. *)
Definition initialState : State :=
  mkState (Params.mk 80 12 5 4) "STD" 0.

(** The three locals of [draw] that position the two bodies. *)
Record Placement : Type := mkPlacement {
  pinGroupAngle : Number;
  discCenter : Point;
  discRotation : Number
}.

(** What [updateParams] writes to the page.  [k1] holds the number handed to
    [toFixed(3)]; [warn] is [displays.warn.style.display]. *)
Record Displays : Type := mkDisplays {
  ratio : string;
  dir : string;
  k1 : Number;
  warn : string
}.

(** ** Mathematical core *)

(** The literal [1e-6] of the degenerate-tangent guard. *)
Definition epsilon : Number := 1 / 1000000.

(** [function getCycloidPoint(theta, R, Zp, rp, e)]. *)
Definition getCycloidPoint (theta R Zp rp e : Number) : Point :=
  let x0 := R * cos theta - e * cos (Zp * theta) in
  let y0 := R * sin theta - e * sin (Zp * theta) in
  let dxdt := - R * sin theta + e * Zp * sin (Zp * theta) in
  let dydt := R * cos theta - e * Zp * cos (Zp * theta) in
  let len := sqrt (dxdt * dxdt + dydt * dydt) in
  if Rlt_dec len epsilon then mkPoint x0 y0
  else
    let nx := - dydt / len in
    let ny := dxdt / len in
    mkPoint (x0 + rp * nx) (y0 + rp * ny).

(** The intermediate quantities of [getCycloidPoint], named as in the source,
    for use in statements. *)
Section Locals.
Variables theta R Zp e : Number.

Definition x0 : Number := R * cos theta - e * cos (Zp * theta).
Definition y0 : Number := R * sin theta - e * sin (Zp * theta).
Definition dxdt : Number := - R * sin theta + e * Zp * sin (Zp * theta).
Definition dydt : Number := R * cos theta - e * Zp * cos (Zp * theta).
Definition len : Number := sqrt (dxdt * dxdt + dydt * dydt).
End Locals.

(** *** Instrumented arithmetic

    The two operations of [getCycloidPoint] that can leave the finite numbers
    are [Math.sqrt] (NaN on a negative argument) and [/] (NaN or an infinity
    on a zero divisor).  The checked variants below return [None] there, and
    [getCycloidPoint_checked] is the same function body run with them. *)

Definition sqrt_checked (a : Number) : option Number :=
  if Rlt_dec a 0 then None else Some (sqrt a).

Definition div_checked (a b : Number) : option Number :=
  if Req_dec_T b 0 then None else Some (a / b).

Definition bind {A B : Type} (m : option A) (k : A -> option B) : option B :=
  match m with
  | Some a => k a
  | None => None
  end.

Notation "v <- m ;; k" := (bind m (fun v => k))
  (at level 61, m at next level, right associativity).

Definition getCycloidPoint_checked (theta R Zp rp e : Number) : option Point :=
  let x0 := R * cos theta - e * cos (Zp * theta) in
  let y0 := R * sin theta - e * sin (Zp * theta) in
  let dxdt := - R * sin theta + e * Zp * sin (Zp * theta) in
  let dydt := R * cos theta - e * Zp * cos (Zp * theta) in
  len <- sqrt_checked (dxdt * dxdt + dydt * dydt) ;;
  if Rlt_dec len epsilon then Some (mkPoint x0 y0)
  else
    nx <- div_checked (- dydt) len ;;
    ny <- div_checked dxdt len ;;
    Some (mkPoint (x0 + rp * nx) (y0 + rp * ny)).

(** ** Kinematics *)

(** The kinematics block of [draw]: from the destructuring of [params] to the
    end of the [if (kinematics === 'STD') ... else ...]. *)
Definition placement (s : State) : Placement :=
  let R := Params.R (params s) in
  let Zp := Params.Zp (params s) in
  let e := Params.e (params s) in
  let Zc := (Zp - 1)%Z in
  if String.eqb (kinematics s) "STD" then
    mkPlacement 0
      (mkPoint (e * cos (rotationAngle s)) (e * sin (rotationAngle s)))
      (- rotationAngle s / IZR Zc)
  else
    mkPlacement (rotationAngle s / IZR Zp)
      (mkPoint (e * cos (rotationAngle s)) (e * sin (rotationAngle s)))
      0.

(** The profile loop of [draw]: [steps = 3600], [i] from [0] to [steps]
    inclusive, [theta = (i / steps) * 2 * Math.PI]. *)
Definition steps : nat := 3600.

Definition profile (p : Params.t) : list Point :=
  map (fun i : nat =>
         let theta := INR i / INR steps * 2 * PI in
         getCycloidPoint theta (Params.R p) (IZR (Params.Zp p))
           (Params.rp p) (Params.e p))
      (seq 0 (S steps)).

(** One frame: what [draw] hands to the canvas, and the globals afterwards
    ([rotationAngle += 0.02]). *)
Definition draw (s : State) : Placement * list Point * State :=
  (placement s, profile (params s),
   mkState (params s) (kinematics s) (rotationAngle s + 2 / 100)).

(** ** Derived read-outs *)

(** ["1 : " + Zc] for an integer-valued Number. *)
Definition string_of_Z (z : Z) : string :=
  NilZero.string_of_int (Z.to_int z).

(** [function updateParams()].  [inputs] are the four parsed slider values;
    the echo of the raw values into their labels is left out. *)
Definition updateParams (inputs : Params.t) (s : State) : State * Displays :=
  let params := inputs in
  let Zc := (Params.Zp params - 1)%Z in
  let K1 := (Params.e params * IZR (Params.Zp params)) / Params.R params in
  let '(ratio, dir) :=
    if String.eqb (kinematics s) "STD"
    then (("1 : " ++ string_of_Z Zc)%string, "反向 (Opposite)"%string)
    else (("1 : " ++ string_of_Z (Params.Zp params))%string, "同向 (Same)"%string) in
  let warn :=
    if Rgt_dec (Params.rp params)
               (Params.R params / IZR (Params.Zp params) * (11 / 10))
    then "block"%string
    else if Rgt_dec K1 (98 / 100) then "block"%string else "none"%string in
  (mkState params (kinematics s) (rotationAngle s),
   mkDisplays ratio dir K1 warn).

(** [function setMode(mode)]: stores the mode and refreshes the read-outs
    from the current sliders. *)
Definition setMode (mode : string) (inputs : Params.t) (s : State)
  : State * Displays :=
  updateParams inputs (mkState (params s) mode (rotationAngle s)).

(** ** Vocabulary of the specification *)

(** Valid gear parameters: [R > 0], [Zp >= 2], [rp >= 0], [e >= 0]. *)
Definition valid (p : Params.t) : Prop :=
  0 < Params.R p /\ (2 <= Params.Zp p)%Z /\ 0 <= Params.rp p /\ 0 <= Params.e p.

(** Euclidean length of a point seen as a vector. *)
Definition norm (p : Point) : Number := sqrt (x p * x p + y p * y p).

(** The two modes and their state. *)
Definition FixedPins : string := "STD".
Definition FixedCycloid : string := "RV".

(** The warning is shown. *)
Definition undercutWarning (d : Displays) : bool := String.eqb (warn d) "block".

(** ** The rest of [draw]: pin ring and canvas transforms *)

(** [ctx.rotate(a)]: a point given in the rotated frame, seen from the frame
    around it. *)
Definition rotate (a : Number) (p : Point) : Point :=
  mkPoint (x p * cos a - y p * sin a) (x p * sin a + y p * cos a).

(** [ctx.translate(t.x, t.y)], likewise. *)
Definition translate (t p : Point) : Point :=
  mkPoint (x t + x p) (y t + y p).

(** The pin loop of [draw]: [angle = (2 * Math.PI * i) / Zp], centre
    [(R cos angle, R sin angle)], for [i = 0 .. Zp - 1]. *)
Definition pinCenter (R Zp : Number) (i : nat) : Point :=
  let angle := 2 * PI * INR i / Zp in
  mkPoint (R * cos angle) (R * sin angle).

Definition pins (p : Params.t) : list Point :=
  map (pinCenter (Params.R p) (IZR (Params.Zp p)))
      (seq 0 (Z.to_nat (Params.Zp p))).

(** Where [draw] puts a pin centre: under [ctx.rotate(pinGroupAngle)]. *)
Definition pinWorld (pl : Placement) (c : Point) : Point :=
  rotate (pinGroupAngle pl) c.

(** Where [draw] puts a point of the disc: under
    [ctx.translate(discCenter.x, discCenter.y); ctx.rotate(discRotation)]. *)
Definition discWorld (pl : Placement) (q : Point) : Point :=
  translate (discCenter pl) (rotate (discRotation pl) q).

(** Distance between two points. *)
Definition dist (a b : Point) : Number :=
  norm (mkPoint (x a - x b) (y a - y b)).

(** The profile parameter at which pin [k] meets the disc: the input angle
    brought back by the reduction of the mode, plus [k] pin pitches. *)
Definition contactAngle (s : State) (k : nat) : Number :=
  let Zp := IZR (Params.Zp (params s)) in
  if String.eqb (kinematics s) "STD"
  then rotationAngle s / (Zp - 1) + 2 * PI * INR k / Zp
  else rotationAngle s / Zp + 2 * PI * INR k / Zp.

(** ** Viewport *)

(** [let view = { scale: 3.5, x: 0, y: 0, isDragging: false, lastX: 0,
    lastY: 0 }]. *)
Module View.
Record t : Type := mk {
  scale : Number;
  x : Number;
  y : Number;
  isDragging : bool;
  lastX : Number;
  lastY : Number
}.
End View.

Definition initialView : View.t := View.mk (35 / 10) 0 0 false 0 0.

(** [canvas.width] and [canvas.height]. *)
Record Canvas : Type := mkCanvas { width : Number; height : Number }.

(** The fields of a wheel event and of a mouse event that the listeners
    read. *)
Record WheelEvent : Type := mkWheel {
  deltaY : Number;
  offsetX : Number;
  offsetY : Number
}.

Record MouseEvent : Type := mkMouse { clientX : Number; clientY : Number }.

(** [function resetView()]. *)
Definition resetView (c : Canvas) (v : View.t) : View.t :=
  View.mk (35 / 10) (width c / 2) (height c / 2)
          (View.isDragging v) (View.lastX v) (View.lastY v).

(** The ['wheel'] listener. *)
Definition onWheel (ev : WheelEvent) (v : View.t) : View.t :=
  let zoomIntensity := 1 / 1000 in
  let delta := - deltaY ev * zoomIntensity in
  let newScale := Rmin (Rmax (5 / 10) (View.scale v * (1 + delta))) 20 in
  let mouseX := offsetX ev in
  let mouseY := offsetY ev in
  View.mk newScale
          (mouseX - (mouseX - View.x v) * (newScale / View.scale v))
          (mouseY - (mouseY - View.y v) * (newScale / View.scale v))
          (View.isDragging v) (View.lastX v) (View.lastY v).

(** The ['mousedown'], ['mousemove'] and ['mouseup'] listeners. *)
Definition onMouseDown (ev : MouseEvent) (v : View.t) : View.t :=
  View.mk (View.scale v) (View.x v) (View.y v) true (clientX ev) (clientY ev).

Definition onMouseMove (ev : MouseEvent) (v : View.t) : View.t :=
  if View.isDragging v then
    let dx := clientX ev - View.lastX v in
    let dy := clientY ev - View.lastY v in
    View.mk (View.scale v) (View.x v + dx) (View.y v + dy)
            (View.isDragging v) (clientX ev) (clientY ev)
  else v.

Definition onMouseUp (v : View.t) : View.t :=
  View.mk (View.scale v) (View.x v) (View.y v) false
          (View.lastX v) (View.lastY v).

(** The viewport transform at the head of [draw]:
    [ctx.translate(view.x, view.y); ctx.scale(view.scale, view.scale);
    ctx.scale(1, -1)]. *)
Definition toScreen (v : View.t) (p : Point) : Point :=
  mkPoint (View.x v + View.scale v * (1 * x p))
          (View.y v + View.scale v * (-1 * y p)).

(** [function updateScaleBar()].  [scaleText] is the number put before
    [" mm"], [scaleLine] the one put before ["px"]. *)
Record ScaleBar : Type := mkScaleBar { scaleText : Number; scaleLine : Number }.

Definition log10 (a : Number) : Number := ln a / ln 10.

Definition floor (a : Number) : Number := IZR (Int_part a).

Definition updateScaleBar (v : View.t) : ScaleBar :=
  let targetPixelWidth := 80 in
  let mmPerPixel := 1 / View.scale v in
  let rawMM := targetPixelWidth * mmPerPixel in
  let magnitude := Rpower 10 (floor (log10 rawMM)) in
  let residual := rawMM / magnitude in
  let niceMM :=
    if Rgt_dec residual 5 then 10 * magnitude
    else if Rgt_dec residual 2 then 5 * magnitude
    else 2 * magnitude in
  let pixelWidth := niceMM * View.scale v in
  mkScaleBar niceMM pixelWidth.

(** The locals of [updateScaleBar], for use in statements. *)
Definition rawMM (v : View.t) : Number := 80 * (1 / View.scale v).

Definition magnitude (v : View.t) : Number :=
  Rpower 10 (floor (log10 (rawMM v))).

(** ** The page as a whole *)

(** The globals together with the canvas size and the number of [draw]
    callbacks that [requestAnimationFrame] holds for the next frame. *)
Record App : Type := mkApp {
  globals : State;
  view : View.t;
  canvas : Canvas;
  queued : nat
}.

(** A call of [draw]: the frame is drawn from the current globals,
    [rotationAngle] advances, and the closing
    [requestAnimationFrame(draw)] queues one more call. *)
Definition drawCall (a : App) : App :=
  mkApp (snd (draw (globals a))) (view a) (canvas a) (S (queued a)).

(** [function resize()], with the client size of the viewport element. *)
Definition resize (clientWidth clientHeight : Number) (a : App) : App :=
  let canvas := mkCanvas clientWidth clientHeight in
  let view :=
    View.mk (View.scale (view a)) (width canvas / 2) (height canvas / 2)
            (View.isDragging (view a)) (View.lastX (view a))
            (View.lastY (view a)) in
  drawCall (mkApp (globals a) view canvas (queued a)).

(** An animation frame: the browser takes the queued callbacks and runs
    each of them once; what they queue waits for the frame after. *)
Definition animationFrame (a : App) : App :=
  Nat.iter (queued a) drawCall
           (mkApp (globals a) (view a) (canvas a) 0).

(** The events that reach the listeners of the page. *)
Inductive Event : Type :=
| Resize (clientWidth clientHeight : Number)
| Wheel (ev : WheelEvent)
| MouseDown (ev : MouseEvent)
| MouseMove (ev : MouseEvent)
| MouseUp
| ResetView
| Input (inputs : Params.t)
| SetMode (mode : string) (inputs : Params.t)
| AnimationFrame.

Definition withView (f : View.t -> View.t) (a : App) : App :=
  mkApp (globals a) (f (view a)) (canvas a) (queued a).

Definition withGlobals (f : State -> State) (a : App) : App :=
  mkApp (f (globals a)) (view a) (canvas a) (queued a).

Definition handle (ev : Event) (a : App) : App :=
  match ev with
  | Resize w h => resize w h a
  | Wheel e => withView (onWheel e) a
  | MouseDown e => withView (onMouseDown e) a
  | MouseMove e => withView (onMouseMove e) a
  | MouseUp => withView onMouseUp a
  | ResetView => withView (resetView (canvas a)) a
  | Input inputs => withGlobals (fun s => fst (updateParams inputs s)) a
  | SetMode mode inputs => withGlobals (fun s => fst (setMode mode inputs s)) a
  | AnimationFrame => animationFrame a
  end.

(** The page after a sequence of events, oldest first. *)
Definition run (evs : list Event) (a : App) : App :=
  fold_left (fun acc ev => handle ev acc) evs a.

(** The three calls under [// Start]: [resize(); updateParams();
    resetView()], from the initial globals and an empty callback queue. *)
Definition start (clientWidth clientHeight : Number) (inputs : Params.t)
  : App :=
  let a0 := mkApp initialState initialView (mkCanvas 0 0) 0 in
  (* the size held by [a0] is replaced by [resize] before anything reads it *)
  let a1 := resize clientWidth clientHeight a0 in
  let a2 := withGlobals (fun s => fst (updateParams inputs s)) a1 in
  withView (resetView (canvas a2)) a2.

(** The number of [Resize] events of a trace. *)
Definition isResize (ev : Event) : bool :=
  match ev with
  | Resize _ _ => true
  | _ => false
  end.

Definition resizes (evs : list Event) : nat := length (filter isResize evs).

(** ** Auxiliary facts *)

(** Periodicity of the circular functions along integer multiples of a turn. *)
Lemma cos_period_Z (a : Number) (k : Z) : cos (a + 2 * IZR k * PI) = cos a.
Proof.
  destruct (Z_le_gt_dec 0 k) as [Hk | Hk].
  - rewrite <- (Z2Nat.id k Hk), <- INR_IZR_INZ. apply cos_period.
  - rewrite <- (cos_period (a + 2 * IZR k * PI) (Z.to_nat (- k))).
    rewrite INR_IZR_INZ, Z2Nat.id by lia.
    rewrite opp_IZR. f_equal. ring.
Qed.

Lemma sin_period_Z (a : Number) (k : Z) : sin (a + 2 * IZR k * PI) = sin a.
Proof.
  destruct (Z_le_gt_dec 0 k) as [Hk | Hk].
  - rewrite <- (Z2Nat.id k Hk), <- INR_IZR_INZ. apply sin_period.
  - rewrite <- (sin_period (a + 2 * IZR k * PI) (Z.to_nat (- k))).
    rewrite INR_IZR_INZ, Z2Nat.id by lia.
    rewrite opp_IZR. f_equal. ring.
Qed.

Lemma sin2_cos2_sum (a : Number) : sin a * sin a + cos a * cos a = 1.
Proof. generalize (sin2_cos2 a). unfold Rsqr. tauto. Qed.

Lemma epsilon_pos : 0 < epsilon.
Proof. unfold epsilon. lra. Qed.

Section ProfileFacts.
Variables theta R Zp rp e : Number.

Lemma len_nonneg : 0 <= len theta R Zp e.
Proof. unfold len. apply sqrt_pos. Qed.

Lemma len_square :
  len theta R Zp e * len theta R Zp e =
  dxdt theta R Zp e * dxdt theta R Zp e + dydt theta R Zp e * dydt theta R Zp e.
Proof. unfold len. apply sqrt_sqrt. nra. Qed.

(** The branch taken by the guard [if (len < 1e-6)]. *)
Lemma getCycloidPoint_degenerate :
  len theta R Zp e < epsilon ->
  getCycloidPoint theta R Zp rp e =
  mkPoint (x0 theta R Zp e) (y0 theta R Zp e).
Proof.
  intros H. unfold getCycloidPoint.
  fold (dxdt theta R Zp e) (dydt theta R Zp e). fold (len theta R Zp e).
  destruct (Rlt_dec (len theta R Zp e) epsilon) as [_ | Hn]; [reflexivity | tauto].
Qed.

Lemma getCycloidPoint_regular :
  epsilon <= len theta R Zp e ->
  getCycloidPoint theta R Zp rp e =
  mkPoint (x0 theta R Zp e + rp * (- dydt theta R Zp e / len theta R Zp e))
          (y0 theta R Zp e + rp * (dxdt theta R Zp e / len theta R Zp e)).
Proof.
  intros H. unfold getCycloidPoint.
  fold (dxdt theta R Zp e) (dydt theta R Zp e). fold (len theta R Zp e).
  destruct (Rlt_dec (len theta R Zp e) epsilon) as [Hl | _]; [lra | reflexivity].
Qed.
End ProfileFacts.

(** ** Placement of the two bodies *)

Section PlacementFacts.
Variable p : Params.t.
Variable inputAngle : Number.

Lemma placement_STD :
  placement (mkState p "STD" inputAngle) =
  mkPlacement 0
    (mkPoint (Params.e p * cos inputAngle) (Params.e p * sin inputAngle))
    (- inputAngle / IZR (Params.Zp p - 1)).
Proof. reflexivity. Qed.

(** Every mode string other than ['STD'] takes the [else] branch. *)
Lemma placement_not_STD (mode : string) :
  mode <> "STD"%string ->
  placement (mkState p mode inputAngle) =
  mkPlacement (inputAngle / IZR (Params.Zp p))
    (mkPoint (Params.e p * cos inputAngle) (Params.e p * sin inputAngle))
    0.
Proof.
  intros H. unfold placement. cbn [kinematics].
  destruct (String.eqb_spec mode "STD"); [contradiction | reflexivity].
Qed.

Lemma orbit_radius (e : Number) :
  0 <= e ->
  norm (mkPoint (e * cos inputAngle) (e * sin inputAngle)) = e.
Proof.
  intros He. unfold norm. cbn [x y].
  replace (e * cos inputAngle * (e * cos inputAngle) +
           e * sin inputAngle * (e * sin inputAngle))
    with (e * e * (sin inputAngle * sin inputAngle + cos inputAngle * cos inputAngle))
    by ring.
  rewrite sin2_cos2_sum, Rmult_1_r. now apply sqrt_square.
Qed.
End PlacementFacts.

(** C1.  In mode FixedPins, for every input angle and valid parameters, the
    pin ring does not rotate, the disc centre is
    [(e cos inputAngle, e sin inputAngle)] and the disc rotation is
    [- inputAngle / (Zp - 1)]; hence [Zp - 1] times the disc rotation undoes
    the input angle. *)
Theorem C1_fixed_pins_placement (p : Params.t) (inputAngle : Number) :
  valid p ->
  let pl := placement (mkState p FixedPins inputAngle) in
  pinGroupAngle pl = 0 /\
  discCenter pl =
    mkPoint (Params.e p * cos inputAngle) (Params.e p * sin inputAngle) /\
  discRotation pl = - (inputAngle / (IZR (Params.Zp p) - 1)) /\
  discRotation pl * (IZR (Params.Zp p) - 1) = - inputAngle.
Proof.
  intros (_ & HZp & _ & _) pl. subst pl. unfold FixedPins.
  rewrite placement_STD. cbn [pinGroupAngle discCenter discRotation].
  rewrite minus_IZR.
  assert (HZ : 2 <= IZR (Params.Zp p)) by (apply IZR_le in HZp; exact HZp).
  repeat split; field; lra.
Qed.

Lemma C1_fixed_pins_placement_witness :
  valid (Params.mk 80 12 5 4) /\
  discRotation (placement (mkState (Params.mk 80 12 5 4) FixedPins 22)) = - (22 / (12 - 1)).
Proof.
  assert (Hv : valid (Params.mk 80 12 5 4)).
  { unfold valid. cbn. repeat split; try lra; lia. }
  split; [exact Hv |].
  exact (proj1 (proj2 (proj2 (C1_fixed_pins_placement (Params.mk 80 12 5 4) 22 Hv)))).
Defined.

(** C2.  In mode FixedCycloid, for every input angle and valid parameters,
    the disc centre is [(e cos inputAngle, e sin inputAngle)], the disc does
    not spin, and the pin ring turns by [inputAngle / Zp], in the sense of
    the input: [Zp] times the ring angle is the input angle, and the two
    angles never have opposite signs. *)
Theorem C2_fixed_cycloid_placement (p : Params.t) (inputAngle : Number) :
  valid p ->
  let pl := placement (mkState p FixedCycloid inputAngle) in
  discCenter pl =
    mkPoint (Params.e p * cos inputAngle) (Params.e p * sin inputAngle) /\
  discRotation pl = 0 /\
  pinGroupAngle pl = inputAngle / IZR (Params.Zp p) /\
  pinGroupAngle pl * IZR (Params.Zp p) = inputAngle /\
  0 <= pinGroupAngle pl * inputAngle.
Proof.
  intros (_ & HZp & _ & _) pl. subst pl. unfold FixedCycloid.
  rewrite placement_not_STD by discriminate.
  cbn [pinGroupAngle discCenter discRotation].
  assert (HZ : 2 <= IZR (Params.Zp p)) by (apply IZR_le in HZp; exact HZp).
  repeat split.
  - field. lra.
  - replace (inputAngle / IZR (Params.Zp p) * inputAngle)
      with (inputAngle * inputAngle * / IZR (Params.Zp p)) by (field; lra).
    apply Rmult_le_pos; [nra |].
    left. apply Rinv_0_lt_compat. lra.
Qed.

Lemma C2_fixed_cycloid_placement_witness :
  valid (Params.mk 80 12 5 4) /\
  pinGroupAngle (placement (mkState (Params.mk 80 12 5 4) FixedCycloid 24)) = 24 / 12.
Proof.
  assert (Hv : valid (Params.mk 80 12 5 4)).
  { unfold valid. cbn. repeat split; try lra; lia. }
  split; [exact Hv |].
  exact (proj1 (proj2 (proj2 (C2_fixed_cycloid_placement (Params.mk 80 12 5 4) 24 Hv)))).
Defined.

(** C7.  For every input angle and valid parameters, the disc centre lies at
    distance exactly [e] from the origin in both modes, and it is the same
    point in both modes; the modes differ only in the two angles, which are
    [(0, - inputAngle / (Zp - 1))] and [(inputAngle / Zp, 0)]. *)
Theorem C7_disc_center_orbit (p : Params.t) (inputAngle : Number) :
  valid p ->
  let std := placement (mkState p FixedPins inputAngle) in
  let rv := placement (mkState p FixedCycloid inputAngle) in
  norm (discCenter std) = Params.e p /\
  norm (discCenter rv) = Params.e p /\
  discCenter std = discCenter rv /\
  std = mkPlacement 0 (discCenter rv) (- inputAngle / IZR (Params.Zp p - 1)) /\
  rv = mkPlacement (inputAngle / IZR (Params.Zp p)) (discCenter std) 0.
Proof.
  intros (_ & _ & _ & He) std rv. subst std rv. unfold FixedPins, FixedCycloid.
  rewrite placement_STD, placement_not_STD by discriminate.
  cbn [discCenter].
  rewrite orbit_radius by exact He.
  repeat split.
Qed.

Lemma C7_disc_center_orbit_witness :
  valid (Params.mk 80 12 5 4) /\
  norm (discCenter (placement (mkState (Params.mk 80 12 5 4) FixedPins 1))) = 4.
Proof.
  assert (Hv : valid (Params.mk 80 12 5 4)).
  { unfold valid. cbn. repeat split; try lra; lia. }
  split; [exact Hv |].
  exact (proj1 (C7_disc_center_orbit (Params.mk 80 12 5 4) 1 Hv)).
Defined.

(** ** The profile *)

Section NormalFacts.
Variables theta R Zp e : Number.

Let L := len theta R Zp e.
Let dx := dxdt theta R Zp e.
Let dy := dydt theta R Zp e.

(** The offset direction has unit length. *)
Lemma normal_unit : 0 < L -> norm (mkPoint (- dy / L) (dx / L)) = 1.
Proof.
  intros HL. unfold norm. cbn [x y].
  replace (- dy / L * (- dy / L) + dx / L * (dx / L))
    with ((dx * dx + dy * dy) / (L * L)) by (field; lra).
  unfold dx, dy. rewrite <- len_square. fold L.
  replace (L * L / (L * L)) with 1 by (field; lra).
  apply sqrt_1.
Qed.

(** It is orthogonal to the tangent. *)
Lemma normal_orthogonal : 0 < L -> - dy / L * dx + dx / L * dy = 0.
Proof. intros HL. field. lra. Qed.

(** It is the tangent turned by a quarter turn to the left. *)
Lemma normal_left : 0 < L -> dx * (dx / L) - dy * (- dy / L) = L.
Proof.
  intros HL.
  replace (dx * (dx / L) - dy * (- dy / L))
    with ((dx * dx + dy * dy) / L) by (field; lra).
  unfold dx, dy. rewrite <- len_square. fold L. field. lra.
Qed.

(** Position against tangent: [x0 * dydt - y0 * dxdt] in closed form. *)
Lemma position_cross_tangent :
  x0 theta R Zp e * dy - y0 theta R Zp e * dx =
  R * R + e * e * Zp
  - e * R * (Zp + 1) * (cos theta * cos (Zp * theta) + sin theta * sin (Zp * theta)).
Proof.
  unfold dx, dy, x0, y0, dxdt, dydt.
  generalize (sin2_cos2_sum theta) (sin2_cos2_sum (Zp * theta)).
  generalize (cos theta) (sin theta) (cos (Zp * theta)) (sin (Zp * theta)).
  intros c s C S H1 H2.
  replace ((R * c - e * C) * (R * c - e * Zp * C) -
           (R * s - e * S) * (- R * s + e * Zp * S))
    with (R * R * (s * s + c * c) + e * e * Zp * (S * S + C * C)
          - e * R * (Zp + 1) * (c * C + s * S)) by ring.
  rewrite H1, H2. ring.
Qed.

(** Below the looping limit [e * Zp < R] the offset direction points to the
    side of the origin, which the base curve then encloses. *)
Lemma normal_points_inward :
  0 <= e -> 1 <= Zp -> e * Zp < R -> 0 < L ->
  x0 theta R Zp e * (- dy / L) + y0 theta R Zp e * (dx / L) < 0.
Proof.
  intros He HZ Hlim HL.
  replace (x0 theta R Zp e * (- dy / L) + y0 theta R Zp e * (dx / L))
    with (- ((x0 theta R Zp e * dy - y0 theta R Zp e * dx) * / L))
    by (field; lra).
  apply Ropp_lt_gt_0_contravar, Rlt_gt.
  apply Rmult_lt_0_compat; [| now apply Rinv_0_lt_compat].
  rewrite position_cross_tangent.
  generalize (sin2_cos2_sum theta) (sin2_cos2_sum (Zp * theta)).
  generalize (cos theta) (sin theta) (cos (Zp * theta)) (sin (Zp * theta)).
  intros c s C S H1 H2.
  assert (Hsq : (c * C + s * S) * (c * C + s * S) +
                (c * S - s * C) * (c * S - s * C) = 1).
  { replace ((c * C + s * S) * (c * C + s * S) +
             (c * S - s * C) * (c * S - s * C))
      with ((s * s + c * c) * (S * S + C * C)) by ring.
    rewrite H1, H2. ring. }
  assert (Hu : c * C + s * S <= 1).
  { generalize (Rle_0_sqr (c * S - s * C)). unfold Rsqr. nra. }
  assert (HeZ : 0 <= e * Zp) by (apply Rmult_le_pos; lra).
  assert (HeZ' : e <= e * Zp) by nra.
  assert (HeR : 0 <= e * R * (Zp + 1))
    by (repeat apply Rmult_le_pos; lra).
  assert (Hprod : 0 < (R - e) * (R - e * Zp))
    by (apply Rmult_lt_0_compat; lra).
  assert (Hmono : e * R * (Zp + 1) * (c * C + s * S) <= e * R * (Zp + 1) * 1)
    by (apply Rmult_le_compat_l; assumption).
  nra.
Qed.
End NormalFacts.

(** C3.  For every [theta] and valid parameters, when the tangent length [L]
    reaches the epsilon threshold, the profile point is the base epitrochoid
    point displaced by [rp] along [(- dydt, dxdt) / L]; that direction has
    unit length, is orthogonal to the tangent and is the tangent turned a
    quarter turn to the left (the interior side of a curve run through
    anticlockwise), so the point lies at distance exactly [rp] from the base
    point. *)
Theorem C3_equidistant_offset (theta : Number) (p : Params.t) :
  valid p ->
  let R := Params.R p in
  let Zp := IZR (Params.Zp p) in
  let rp := Params.rp p in
  let e := Params.e p in
  let L := len theta R Zp e in
  let n := mkPoint (- dydt theta R Zp e / L) (dxdt theta R Zp e / L) in
  let base := mkPoint (x0 theta R Zp e) (y0 theta R Zp e) in
  let pt := getCycloidPoint theta R Zp rp e in
  epsilon <= L ->
  pt = mkPoint (x base + rp * x n) (y base + rp * y n) /\
  norm n = 1 /\
  x n * dxdt theta R Zp e + y n * dydt theta R Zp e = 0 /\
  dxdt theta R Zp e * y n - dydt theta R Zp e * x n = L /\
  norm (mkPoint (x pt - x base) (y pt - y base)) = rp.
Proof.
  intros (_ & _ & Hrp & _) R Zp rp e L n base pt HL.
  assert (HL0 : 0 < L) by (generalize epsilon_pos; lra).
  assert (Hpt : pt = mkPoint (x base + rp * x n) (y base + rp * y n))
    by (apply getCycloidPoint_regular; exact HL).
  assert (Hn : norm n = 1) by (apply normal_unit; exact HL0).
  split; [exact Hpt |]. split; [exact Hn |].
  split; [apply normal_orthogonal; exact HL0 |].
  split; [apply normal_left; exact HL0 |].
  rewrite Hpt. unfold norm in *. cbn [x y] in *.
  replace ((x base + rp * x n - x base) * (x base + rp * x n - x base) +
           (y base + rp * y n - y base) * (y base + rp * y n - y base))
    with (rp * rp * (x n * x n + y n * y n)) by ring.
  rewrite sqrt_mult_alt by nra.
  rewrite Hn, Rmult_1_r. apply sqrt_square. exact Hrp.
Qed.

(** The tangent length at [theta = 0] and for [e = 0]. *)
Lemma len_at_0 (R Zp e : Number) : len 0 R Zp e = Rabs (R - e * Zp).
Proof.
  unfold len, dxdt, dydt.
  rewrite Rmult_0_r, sin_0, cos_0.
  replace ((- R * 0 + e * Zp * 0) * (- R * 0 + e * Zp * 0) +
           (R * 1 - e * Zp * 1) * (R * 1 - e * Zp * 1))
    with (Rsqr (R - e * Zp)) by (unfold Rsqr; ring).
  apply sqrt_Rsqr_abs.
Qed.

Lemma len_e0 (theta R Zp : Number) : len theta R Zp 0 = Rabs R.
Proof.
  unfold len, dxdt, dydt.
  replace ((- R * sin theta + 0 * Zp * sin (Zp * theta)) *
           (- R * sin theta + 0 * Zp * sin (Zp * theta)) +
           (R * cos theta - 0 * Zp * cos (Zp * theta)) *
           (R * cos theta - 0 * Zp * cos (Zp * theta)))
    with (Rsqr R * (sin theta * sin theta + cos theta * cos theta))
    by (unfold Rsqr; ring).
  rewrite sin2_cos2_sum, Rmult_1_r.
  apply sqrt_Rsqr_abs.
Qed.

Lemma valid_default : valid (Params.mk 80 12 5 4).
Proof. unfold valid. cbn. repeat split; try lra; lia. Defined.

Lemma C3_equidistant_offset_witness :
  valid (Params.mk 80 12 5 4) /\
  epsilon <= len 0 80 12 4 /\
  getCycloidPoint 0 80 12 5 4 =
    mkPoint (x0 0 80 12 4 + 5 * (- dydt 0 80 12 4 / len 0 80 12 4))
            (y0 0 80 12 4 + 5 * (dxdt 0 80 12 4 / len 0 80 12 4)).
Proof.
  assert (HL : epsilon <= len 0 80 12 4).
  { rewrite len_at_0. unfold epsilon.
    replace (80 - 4 * 12) with 32 by ring.
    rewrite Rabs_pos_eq; lra. }
  split; [exact valid_default |]. split; [exact HL |].
  exact (proj1 (C3_equidistant_offset 0 (Params.mk 80 12 5 4) valid_default HL)).
Defined.

(** C6 as stated fails below the guard.  For [e = 0], [R = 1e-7], [Zp = 2],
    [rp = 1] and [theta = 0] the tangent length is [1e-7 < 1e-6], so the
    guard returns the base point [(1e-7, 0)], not [((R - rp) cos 0, (R - rp)
    sin 0) = (1e-7 - 1, 0)]. *)
Lemma C6_circle_counterexample :
  0 < 1 / 10000000 /\ (2 <= 2)%Z /\ 0 <= 1 /\
  getCycloidPoint 0 (1 / 10000000) (IZR 2) 1 0 = mkPoint (1 / 10000000) 0 /\
  getCycloidPoint 0 (1 / 10000000) (IZR 2) 1 0 <>
    mkPoint ((1 / 10000000 - 1) * cos 0) ((1 / 10000000 - 1) * sin 0).
Proof.
  assert (Hpt : getCycloidPoint 0 (1 / 10000000) (IZR 2) 1 0 =
                mkPoint (1 / 10000000) 0).
  { rewrite getCycloidPoint_degenerate.
    - unfold x0, y0. rewrite Rmult_0_r, sin_0, cos_0. f_equal; ring.
    - rewrite len_e0. unfold epsilon. rewrite Rabs_pos_eq; lra. }
  repeat split; try lra; try lia; try exact Hpt.
  rewrite Hpt, cos_0. intros H.
  apply (f_equal x) in H. cbn [x] in H. lra.
Qed.

(** C6, amended.  For [e = 0], every [R] at or above the epsilon threshold
    [1e-6], every integer [Zp >= 2] and every [rp >= 0], the profile is the
    circle of radius [R - rp] about the origin, whatever [Zp] is. *)
Theorem C6_circle_above_threshold (theta R rp : Number) (Zp : Z) :
  epsilon <= R -> (2 <= Zp)%Z -> 0 <= rp ->
  getCycloidPoint theta R (IZR Zp) rp 0 =
  mkPoint ((R - rp) * cos theta) ((R - rp) * sin theta).
Proof.
  intros HR _ _.
  assert (HR0 : 0 < R) by (generalize epsilon_pos; lra).
  assert (HL : len theta R (IZR Zp) 0 = R)
    by (rewrite len_e0; apply Rabs_pos_eq; lra).
  rewrite getCycloidPoint_regular by (rewrite HL; exact HR).
  rewrite HL. unfold x0, y0, dxdt, dydt. f_equal; field; lra.
Qed.

Lemma C6_circle_above_threshold_witness :
  epsilon <= 80 /\ (2 <= 12)%Z /\ 0 <= 5 /\
  getCycloidPoint (PI / 2) 80 (IZR 12) 5 0 =
  mkPoint ((80 - 5) * cos (PI / 2)) ((80 - 5) * sin (PI / 2)).
Proof.
  assert (H1 : epsilon <= 80) by (unfold epsilon; lra).
  assert (H2 : (2 <= 12)%Z) by lia.
  assert (H3 : 0 <= 5) by lra.
  repeat split; try assumption.
  exact (C6_circle_above_threshold (PI / 2) 80 5 12 H1 H2 H3).
Defined.

(** Below the threshold the guard leaves the circle of radius [R]. *)
Lemma circle_below_threshold (theta R Zp rp : Number) :
  0 <= R -> R < epsilon ->
  getCycloidPoint theta R Zp rp 0 = mkPoint (R * cos theta) (R * sin theta).
Proof.
  intros HR0 HR.
  rewrite getCycloidPoint_degenerate
    by (rewrite len_e0, Rabs_pos_eq; assumption).
  unfold x0, y0. f_equal; ring.
Qed.

(** The checked run never meets a negative radicand or a zero divisor. *)
Lemma getCycloidPoint_checked_total (theta R Zp rp e : Number) :
  getCycloidPoint_checked theta R Zp rp e =
  Some (getCycloidPoint theta R Zp rp e).
Proof.
  unfold getCycloidPoint_checked, getCycloidPoint, sqrt_checked.
  set (dx := - R * sin theta + e * Zp * sin (Zp * theta)).
  set (dy := R * cos theta - e * Zp * cos (Zp * theta)).
  destruct (Rlt_dec (dx * dx + dy * dy) 0) as [Hneg | _]; [nra |].
  cbn [bind].
  destruct (Rlt_dec (sqrt (dx * dx + dy * dy)) epsilon) as [_ | Hge];
    [reflexivity |].
  unfold div_checked.
  destruct (Req_dec_T (sqrt (dx * dx + dy * dy)) 0) as [H0 | _].
  - exfalso. apply Hge. rewrite H0. exact epsilon_pos.
  - reflexivity.
Qed.

(** C8.  For every [theta] and every [(R, Zp, rp, e)], valid or not, the
    profile point is computed without taking the root of a negative number
    and without dividing by zero, so that it is a point with two finite
    coordinates; and when the tangent length is below the epsilon threshold
    that point is the unoffset base point [(x0, y0)]. *)
Theorem C8_no_division_by_zero (theta R Zp rp e : Number) :
  getCycloidPoint_checked theta R Zp rp e =
    Some (getCycloidPoint theta R Zp rp e) /\
  (len theta R Zp e < epsilon ->
   getCycloidPoint theta R Zp rp e =
     mkPoint (x0 theta R Zp e) (y0 theta R Zp e)) /\
  (~ len theta R Zp e < epsilon -> len theta R Zp e <> 0).
Proof.
  split; [apply getCycloidPoint_checked_total |]. split.
  - apply getCycloidPoint_degenerate.
  - intros Hge H0. apply Hge. rewrite H0. exact epsilon_pos.
Qed.

(** A cusp of a valid gear: [R = e * Zp] at [theta = 0]. *)
Lemma C8_no_division_by_zero_witness :
  len 0 2 2 1 < epsilon /\
  getCycloidPoint 0 2 2 5 1 = mkPoint (x0 0 2 2 1) (y0 0 2 2 1).
Proof.
  assert (HL : len 0 2 2 1 < epsilon).
  { rewrite len_at_0. replace (2 - 1 * 2) with 0 by ring.
    rewrite Rabs_R0. exact epsilon_pos. }
  split; [exact HL |].
  exact (proj1 (proj2 (C8_no_division_by_zero 0 2 2 5 1)) HL).
Defined.

(** Periodicity holds for every integer [Zp], whatever the other numbers. *)
Lemma getCycloidPoint_periodic (theta R rp e : Number) (Zp : Z) :
  getCycloidPoint (theta + 2 * PI) R (IZR Zp) rp e =
  getCycloidPoint theta R (IZR Zp) rp e.
Proof.
  unfold getCycloidPoint.
  replace (IZR Zp * (theta + 2 * PI))
    with (IZR Zp * theta + 2 * IZR Zp * PI) by ring.
  rewrite !cos_period_Z, !sin_period_Z.
  replace (theta + 2 * PI) with (theta + 2 * IZR 1 * PI) by ring.
  rewrite !cos_period_Z, !sin_period_Z.
  reflexivity.
Qed.

(** C9.  For all valid parameters and every real [theta], the profile point
    at [theta + 2 pi] is the profile point at [theta]. *)
Theorem C9_profile_periodic (theta : Number) (p : Params.t) :
  valid p ->
  getCycloidPoint (theta + 2 * PI) (Params.R p) (IZR (Params.Zp p))
    (Params.rp p) (Params.e p) =
  getCycloidPoint theta (Params.R p) (IZR (Params.Zp p))
    (Params.rp p) (Params.e p).
Proof. intros _. apply getCycloidPoint_periodic. Qed.

Lemma C9_profile_periodic_witness :
  valid (Params.mk 80 12 5 4) /\
  getCycloidPoint (1 + 2 * PI) 80 12 5 4 = getCycloidPoint 1 80 12 5 4.
Proof.
  split; [exact valid_default |].
  exact (C9_profile_periodic 1 (Params.mk 80 12 5 4) valid_default).
Defined.

(** As a consequence the sampled outline of [draw] is closed: its last point
    is its first. *)
Lemma profile_closed (p : Params.t) :
  nth 0 (profile p) (mkPoint 0 0) = nth steps (profile p) (mkPoint 0 0).
Proof.
  set (f := fun i : nat =>
        getCycloidPoint (INR i / INR steps * 2 * PI) (Params.R p)
          (IZR (Params.Zp p)) (Params.rp p) (Params.e p)).
  assert (Hlen : length (profile p) = S steps)
    by (unfold profile; rewrite length_map, length_seq; reflexivity).
  rewrite (nth_indep (profile p) (mkPoint 0 0) (f 0%nat)) by (rewrite Hlen; lia).
  rewrite (nth_indep (profile p) (mkPoint 0 0) (f 0%nat) (n := steps))
    by (rewrite Hlen; lia).
  unfold profile. fold f. rewrite !map_nth.
  rewrite !seq_nth by lia.
  rewrite !Nat.add_0_l. unfold f.
  assert (Hs : INR steps <> 0) by (apply not_0_INR; discriminate).
  replace (INR steps / INR steps * 2 * PI)
    with (INR 0 / INR steps * 2 * PI + 2 * PI)
    by (change (INR 0) with 0; field; exact Hs).
  symmetry. apply getCycloidPoint_periodic.
Qed.

(** C10.  For [rp = 0] the profile point is the base epitrochoid point, for
    every [theta] and every [(R, Zp, e)], on either side of the guard. *)
Theorem C10_zero_pin_radius (theta R Zp e : Number) :
  getCycloidPoint theta R Zp 0 e = mkPoint (x0 theta R Zp e) (y0 theta R Zp e).
Proof.
  destruct (Rlt_le_dec (len theta R Zp e) epsilon) as [Hlt | Hge].
  - apply getCycloidPoint_degenerate. exact Hlt.
  - rewrite getCycloidPoint_regular by exact Hge.
    f_equal; ring.
Qed.

(** ** Derived quantities *)

Section ReadOuts.
Variable inputs : Params.t.
Variable s : State.

Lemma updateParams_k1 :
  k1 (snd (updateParams inputs s)) =
  Params.e inputs * IZR (Params.Zp inputs) / Params.R inputs.
Proof.
  unfold updateParams.
  destruct (String.eqb (kinematics s) "STD"); reflexivity.
Qed.

Lemma updateParams_warn :
  warn (snd (updateParams inputs s)) =
  if Rgt_dec (Params.rp inputs)
             (Params.R inputs / IZR (Params.Zp inputs) * (11 / 10))
  then "block"%string
  else if Rgt_dec (Params.e inputs * IZR (Params.Zp inputs) / Params.R inputs)
                  (98 / 100)
       then "block"%string else "none"%string.
Proof.
  unfold updateParams.
  destruct (String.eqb (kinematics s) "STD"); reflexivity.
Qed.

Lemma updateParams_STD :
  kinematics s = "STD"%string ->
  ratio (snd (updateParams inputs s)) =
    ("1 : " ++ string_of_Z (Params.Zp inputs - 1))%string /\
  dir (snd (updateParams inputs s)) = "反向 (Opposite)"%string.
Proof. intros H. unfold updateParams. rewrite H. split; reflexivity. Qed.

Lemma updateParams_not_STD :
  kinematics s <> "STD"%string ->
  ratio (snd (updateParams inputs s)) =
    ("1 : " ++ string_of_Z (Params.Zp inputs))%string /\
  dir (snd (updateParams inputs s)) = "同向 (Same)"%string.
Proof.
  intros H. unfold updateParams.
  destruct (String.eqb_spec (kinematics s) "STD"); [contradiction |].
  split; reflexivity.
Qed.

(** The read-outs do not look at [rotationAngle] or at the old [params]. *)
Lemma updateParams_mode_only (s' : State) :
  kinematics s' = kinematics s ->
  snd (updateParams inputs s') = snd (updateParams inputs s).
Proof.
  intros H. unfold updateParams. rewrite H.
  destruct (String.eqb (kinematics s) "STD"); reflexivity.
Qed.
End ReadOuts.

(** C4.  The warning is shown if and only if [rp > 1.1 * (R / Zp)] or the
    eccentricity factor [e * Zp / R] exceeds [0.98].  For [R = 80],
    [Zp = 12], [rp = 5], [e = 4] the factor is [0.6] and the warning is off;
    with [e = 20] the factor is [3] and the warning is on. *)
Theorem C4_undercut_warning :
  (forall (inputs : Params.t) (s : State),
     let d := snd (updateParams inputs s) in
     k1 d = Params.e inputs * IZR (Params.Zp inputs) / Params.R inputs /\
     (undercutWarning d = true <->
      Params.rp inputs > 11 / 10 * (Params.R inputs / IZR (Params.Zp inputs)) \/
      k1 d > 98 / 100)) /\
  (forall s : State,
     let d := snd (updateParams (Params.mk 80 12 5 4) s) in
     k1 d = 6 / 10 /\ undercutWarning d = false) /\
  (forall s : State,
     let d := snd (updateParams (Params.mk 80 12 5 20) s) in
     k1 d = 3 /\ undercutWarning d = true).
Proof.
  split; [| split].
  - intros inputs s d. subst d. split; [apply updateParams_k1 |].
    unfold undercutWarning. rewrite updateParams_warn, updateParams_k1.
    destruct (Rgt_dec _ _) as [H1 | H1].
    + split; [intros _; left; lra | reflexivity].
    + destruct (Rgt_dec _ _) as [H2 | H2].
      * split; [intros _; right; exact H2 | reflexivity].
      * split; [discriminate | intros [H | H]; [exfalso; lra | contradiction]].
  - intros s d. subst d. unfold undercutWarning.
    rewrite updateParams_warn, updateParams_k1. cbn [Params.R Params.Zp Params.rp Params.e].
    split; [field |].
    destruct (Rgt_dec _ _) as [H1 | _]; [exfalso; lra |].
    destruct (Rgt_dec _ _) as [H2 | _]; [exfalso; lra | reflexivity].
  - intros s d. subst d. unfold undercutWarning.
    rewrite updateParams_warn, updateParams_k1. cbn [Params.R Params.Zp Params.rp Params.e].
    split; [field |].
    destruct (Rgt_dec _ _) as [_ | _]; [reflexivity |].
    destruct (Rgt_dec _ _) as [_ | H2]; [reflexivity | exfalso; lra].
Qed.

(** C5.  The read-outs depend only on the parameters and the mode.  In mode
    FixedPins the ratio reads [1 : Zp - 1] and the direction is the opposite
    one; in mode FixedCycloid the ratio reads [1 : Zp] and the direction is
    the same one. *)
Theorem C5_reduction_ratio (inputs : Params.t) (s : State) :
  let d := snd (updateParams inputs s) in
  (forall s' : State,
     kinematics s' = kinematics s -> snd (updateParams inputs s') = d) /\
  (kinematics s = FixedPins ->
   ratio d = ("1 : " ++ string_of_Z (Params.Zp inputs - 1))%string /\
   dir d = "反向 (Opposite)"%string) /\
  (kinematics s = FixedCycloid ->
   ratio d = ("1 : " ++ string_of_Z (Params.Zp inputs))%string /\
   dir d = "同向 (Same)"%string).
Proof.
  intros d. subst d. split; [| split].
  - intros s'. apply updateParams_mode_only.
  - apply updateParams_STD.
  - intros H. apply updateParams_not_STD. rewrite H. discriminate.
Qed.

(** For [Zp = 12] the two ratios read [1 : 11] and [1 : 12]. *)
Lemma C5_reduction_ratio_witness :
  ratio (snd (updateParams (Params.mk 80 12 5 4) (mkState (Params.mk 80 12 5 4) FixedPins 0)))
    = "1 : 11"%string /\
  dir (snd (updateParams (Params.mk 80 12 5 4) (mkState (Params.mk 80 12 5 4) FixedPins 0)))
    = "反向 (Opposite)"%string /\
  ratio (snd (updateParams (Params.mk 80 12 5 4) (mkState (Params.mk 80 12 5 4) FixedCycloid 7)))
    = "1 : 12"%string /\
  dir (snd (updateParams (Params.mk 80 12 5 4) (mkState (Params.mk 80 12 5 4) FixedCycloid 7)))
    = "同向 (Same)"%string.
Proof.
  pose proof (proj1 (proj2 (C5_reduction_ratio (Params.mk 80 12 5 4)
                 (mkState (Params.mk 80 12 5 4) FixedPins 0))) eq_refl) as [H1 H2].
  pose proof (proj2 (proj2 (C5_reduction_ratio (Params.mk 80 12 5 4)
                 (mkState (Params.mk 80 12 5 4) FixedCycloid 7))) eq_refl) as [H3 H4].
  repeat split; assumption.
Defined.

(** ** Meshing of the disc with the pin ring *)

Lemma rotate_0 (p : Point) : rotate 0 p = p.
Proof.
  destruct p as [px py]. unfold rotate. cbn [x y].
  rewrite cos_0, sin_0. f_equal; ring.
Qed.

(** Turning the base curve adds the angle to both of its phases. *)
Lemma rotate_base (psi theta R Zp e : Number) :
  rotate psi (mkPoint (x0 theta R Zp e) (y0 theta R Zp e)) =
  mkPoint (R * cos (theta + psi) - e * cos (Zp * theta + psi))
          (R * sin (theta + psi) - e * sin (Zp * theta + psi)).
Proof.
  unfold rotate, x0, y0. cbn [x y].
  rewrite !cos_plus, !sin_plus. f_equal; ring.
Qed.

Lemma rotate_pinCenter (a R Zp : Number) (k : nat) :
  rotate a (pinCenter R Zp k) =
  mkPoint (R * cos (2 * PI * INR k / Zp + a)) (R * sin (2 * PI * INR k / Zp + a)).
Proof.
  unfold rotate, pinCenter. cbn [x y].
  rewrite !cos_plus, !sin_plus. f_equal; ring.
Qed.

(** Canvas rotations and translations keep distances. *)
Lemma norm_rotate (a : Number) (p : Point) : norm (rotate a p) = norm p.
Proof.
  unfold norm, rotate. cbn [x y]. f_equal.
  replace ((x p * cos a - y p * sin a) * (x p * cos a - y p * sin a) +
           (x p * sin a + y p * cos a) * (x p * sin a + y p * cos a))
    with ((x p * x p + y p * y p) * (sin a * sin a + cos a * cos a)) by ring.
  rewrite sin2_cos2_sum. ring.
Qed.

Lemma dist_discWorld (pl : Placement) (a b : Point) :
  dist (discWorld pl a) (discWorld pl b) = dist a b.
Proof.
  unfold dist, discWorld, translate. cbn [x y].
  rewrite <- (norm_rotate (discRotation pl) (mkPoint (x a - x b) (y a - y b))).
  unfold norm, rotate. cbn [x y]. f_equal. ring.
Qed.

(** Above the guard the profile point is [rp] away from the base point. *)
Lemma offset_distance (theta R Zp rp e : Number) :
  epsilon <= len theta R Zp e -> 0 <= rp ->
  dist (getCycloidPoint theta R Zp rp e)
       (mkPoint (x0 theta R Zp e) (y0 theta R Zp e)) = rp.
Proof.
  intros HL Hrp.
  assert (HL0 : 0 < len theta R Zp e) by (generalize epsilon_pos; lra).
  rewrite getCycloidPoint_regular by exact HL.
  pose proof (normal_unit theta R Zp e HL0) as Hn.
  unfold dist, norm in *. cbn [x y] in *.
  set (nx := - dydt theta R Zp e / len theta R Zp e) in *.
  set (ny := dxdt theta R Zp e / len theta R Zp e) in *.
  replace ((x0 theta R Zp e + rp * nx - x0 theta R Zp e) *
           (x0 theta R Zp e + rp * nx - x0 theta R Zp e) +
           (y0 theta R Zp e + rp * ny - y0 theta R Zp e) *
           (y0 theta R Zp e + rp * ny - y0 theta R Zp e))
    with (rp * rp * (nx * nx + ny * ny)) by ring.
  rewrite sqrt_mult_alt by nra.
  rewrite Hn, Rmult_1_r. apply sqrt_square. exact Hrp.
Qed.

Section Meshing.
Variable p : Params.t.
Variable phi : Number.
Variable k : nat.

Let R := Params.R p.
Let Zp := IZR (Params.Zp p).
Let e := Params.e p.

Lemma mesh_STD :
  (2 <= Params.Zp p)%Z ->
  let s := mkState p "STD" phi in
  let theta := contactAngle s k in
  discWorld (placement s) (mkPoint (x0 theta R Zp e) (y0 theta R Zp e)) =
  pinWorld (placement s) (pinCenter R Zp k).
Proof.
  intros HZ s theta.
  assert (HZp : 2 <= Zp) by (apply IZR_le in HZ; exact HZ).
  subst s theta. rewrite placement_STD. unfold discWorld, pinWorld, contactAngle.
  cbn [discCenter discRotation pinGroupAngle kinematics params rotationAngle String.eqb Ascii.eqb Bool.eqb].
  fold Zp R e.
  rewrite rotate_0, rotate_base, minus_IZR. fold Zp.
  replace (phi / (Zp - 1) + 2 * PI * INR k / Zp + - phi / (Zp - 1))
    with (2 * PI * INR k / Zp) by (field; lra).
  replace (Zp * (phi / (Zp - 1) + 2 * PI * INR k / Zp) + - phi / (Zp - 1))
    with (phi + 2 * INR k * PI) by (field; lra).
  rewrite cos_period, sin_period.
  unfold translate, pinCenter. cbn [x y]. f_equal; ring.
Qed.

Lemma mesh_other (mode : string) :
  mode <> "STD"%string -> (2 <= Params.Zp p)%Z ->
  let s := mkState p mode phi in
  let theta := contactAngle s k in
  discWorld (placement s) (mkPoint (x0 theta R Zp e) (y0 theta R Zp e)) =
  pinWorld (placement s) (pinCenter R Zp k).
Proof.
  intros Hm HZ s theta.
  assert (HZp : 2 <= Zp) by (apply IZR_le in HZ; exact HZ).
  subst s theta. rewrite placement_not_STD by exact Hm.
  unfold discWorld, pinWorld, contactAngle.
  cbn [discCenter discRotation pinGroupAngle kinematics params rotationAngle].
  destruct (String.eqb_spec mode "STD") as [Heq | _]; [contradiction |].
  fold Zp R e.
  rewrite rotate_0, rotate_pinCenter.
  unfold translate, x0, y0. cbn [x y].
  replace (Zp * (phi / Zp + 2 * PI * INR k / Zp))
    with (phi + 2 * INR k * PI) by (field; lra).
  rewrite cos_period, sin_period.
  replace (2 * PI * INR k / Zp + phi / Zp)
    with (phi / Zp + 2 * PI * INR k / Zp) by ring.
  f_equal; ring.
Qed.
End Meshing.

(** X1.  In either mode, at every input angle and for every pin [k], the
    base epitrochoid, placed as [draw] places the disc, passes through the
    centre of pin [k], placed as [draw] places the pin ring; it does so at
    the profile parameter [contactAngle]. *)
Theorem base_curve_through_pins
  (p : Params.t) (mode : string) (phi : Number) (k : nat) :
  (2 <= Params.Zp p)%Z ->
  let s := mkState p mode phi in
  let theta := contactAngle s k in
  discWorld (placement s)
    (mkPoint (x0 theta (Params.R p) (IZR (Params.Zp p)) (Params.e p))
             (y0 theta (Params.R p) (IZR (Params.Zp p)) (Params.e p))) =
  pinWorld (placement s) (pinCenter (Params.R p) (IZR (Params.Zp p)) k).
Proof.
  intros HZ.
  destruct (string_dec mode "STD") as [-> | Hm].
  - apply mesh_STD. exact HZ.
  - apply mesh_other; assumption.
Qed.

Lemma base_curve_through_pins_witness :
  (2 <= 12)%Z /\
  discWorld (placement (mkState (Params.mk 80 12 5 4) "STD" 1))
    (mkPoint (x0 (contactAngle (mkState (Params.mk 80 12 5 4) "STD" 1) 3) 80 12 4)
             (y0 (contactAngle (mkState (Params.mk 80 12 5 4) "STD" 1) 3) 80 12 4)) =
  pinWorld (placement (mkState (Params.mk 80 12 5 4) "STD" 1)) (pinCenter 80 12 3).
Proof.
  assert (H : (2 <= 12)%Z) by lia.
  split; [exact H |].
  exact (base_curve_through_pins (Params.mk 80 12 5 4) "STD" 1 3 H).
Defined.

(** X2.  In either mode, at every input angle and for every pin [k], the
    drawn disc outline touches pin [k]: the profile point at [contactAngle],
    placed as the disc, lies at distance exactly [rp] from the placed pin
    centre, provided the guard does not fire there; where it fires, the
    outline runs through the pin centre itself. *)
Theorem profile_touches_pins
  (p : Params.t) (mode : string) (phi : Number) (k : nat) :
  valid p ->
  let s := mkState p mode phi in
  let theta := contactAngle s k in
  let L := len theta (Params.R p) (IZR (Params.Zp p)) (Params.e p) in
  let pt := getCycloidPoint theta (Params.R p) (IZR (Params.Zp p))
              (Params.rp p) (Params.e p) in
  let pin := pinCenter (Params.R p) (IZR (Params.Zp p)) k in
  (epsilon <= L ->
   dist (discWorld (placement s) pt) (pinWorld (placement s) pin) = Params.rp p) /\
  (L < epsilon ->
   discWorld (placement s) pt = pinWorld (placement s) pin).
Proof.
  intros (_ & HZ & Hrp & _) s theta L pt pin.
  assert (Hmesh :
    discWorld (placement s)
      (mkPoint (x0 theta (Params.R p) (IZR (Params.Zp p)) (Params.e p))
               (y0 theta (Params.R p) (IZR (Params.Zp p)) (Params.e p))) =
    pinWorld (placement s) pin).
  { subst s theta pin. destruct (string_dec mode "STD") as [-> | Hm].
    - apply mesh_STD. exact HZ.
    - apply mesh_other; assumption. }
  split; intros HL.
  - rewrite <- Hmesh, dist_discWorld. apply offset_distance; assumption.
  - rewrite <- Hmesh. subst pt. f_equal.
    apply getCycloidPoint_degenerate. exact HL.
Qed.

Lemma profile_touches_pins_witness :
  valid (Params.mk 80 12 5 4) /\
  epsilon <= len (contactAngle (mkState (Params.mk 80 12 5 4) "STD" 0) 0) 80 12 4 /\
  dist (discWorld (placement (mkState (Params.mk 80 12 5 4) "STD" 0))
          (getCycloidPoint (contactAngle (mkState (Params.mk 80 12 5 4) "STD" 0) 0)
             80 12 5 4))
       (pinWorld (placement (mkState (Params.mk 80 12 5 4) "STD" 0))
          (pinCenter 80 12 0)) = 5.
Proof.
  assert (Hc : contactAngle (mkState (Params.mk 80 12 5 4) "STD" 0) 0 = 0).
  { unfold contactAngle. cbn. field. }
  assert (HL : epsilon <=
               len (contactAngle (mkState (Params.mk 80 12 5 4) "STD" 0) 0) 80 12 4).
  { rewrite Hc, len_at_0. unfold epsilon.
    replace (80 - 4 * 12) with 32 by ring.
    rewrite Rabs_pos_eq; lra. }
  split; [exact valid_default |]. split; [exact HL |].
  exact (proj1 (profile_touches_pins (Params.mk 80 12 5 4) "STD" 0 0 valid_default) HL).
Defined.

(** ** Lobes of the disc *)

Section Lobes.
Variables theta R Zp rp e : Number.
Hypothesis HZc : Zp - 1 <> 0.

Let delta := 2 * PI / (Zp - 1).
Let cd := cos delta.
Let sd := sin delta.

Lemma lobe_phase_cos : cos (Zp * (theta + delta)) = cos (Zp * theta + delta).
Proof.
  replace (Zp * (theta + delta)) with (Zp * theta + delta + 2 * INR 1 * PI)
    by (unfold delta; simpl INR; field; exact HZc).
  apply cos_period.
Qed.

Lemma lobe_phase_sin : sin (Zp * (theta + delta)) = sin (Zp * theta + delta).
Proof.
  replace (Zp * (theta + delta)) with (Zp * theta + delta + 2 * INR 1 * PI)
    by (unfold delta; simpl INR; field; exact HZc).
  apply sin_period.
Qed.

Lemma lobe_x0 :
  x0 (theta + delta) R Zp e = x0 theta R Zp e * cd - y0 theta R Zp e * sd.
Proof.
  unfold x0, y0. rewrite lobe_phase_cos, !cos_plus. fold cd sd. ring.
Qed.

Lemma lobe_y0 :
  y0 (theta + delta) R Zp e = x0 theta R Zp e * sd + y0 theta R Zp e * cd.
Proof.
  unfold x0, y0. rewrite lobe_phase_sin, !sin_plus. fold cd sd. ring.
Qed.

Lemma lobe_dxdt :
  dxdt (theta + delta) R Zp e = dxdt theta R Zp e * cd - dydt theta R Zp e * sd.
Proof.
  unfold dxdt, dydt. rewrite lobe_phase_sin, !sin_plus. fold cd sd. ring.
Qed.

Lemma lobe_dydt :
  dydt (theta + delta) R Zp e = dxdt theta R Zp e * sd + dydt theta R Zp e * cd.
Proof.
  unfold dxdt, dydt. rewrite lobe_phase_cos, !cos_plus. fold cd sd. ring.
Qed.

Lemma lobe_len : len (theta + delta) R Zp e = len theta R Zp e.
Proof.
  unfold len at 1. rewrite lobe_dxdt, lobe_dydt. unfold len. f_equal.
  set (dx := dxdt theta R Zp e). set (dy := dydt theta R Zp e).
  replace ((dx * cd - dy * sd) * (dx * cd - dy * sd) +
           (dx * sd + dy * cd) * (dx * sd + dy * cd))
    with ((dx * dx + dy * dy) * (sd * sd + cd * cd)) by ring.
  unfold sd, cd. rewrite sin2_cos2_sum. ring.
Qed.

Lemma lobe_point :
  getCycloidPoint (theta + delta) R Zp rp e =
  rotate delta (getCycloidPoint theta R Zp rp e).
Proof.
  destruct (Rlt_le_dec (len theta R Zp e) epsilon) as [Hlt | Hge].
  - rewrite (getCycloidPoint_degenerate theta) by exact Hlt.
    rewrite getCycloidPoint_degenerate by (rewrite lobe_len; exact Hlt).
    rewrite lobe_x0, lobe_y0. reflexivity.
  - assert (HL0 : len theta R Zp e <> 0) by (generalize epsilon_pos; lra).
    rewrite (getCycloidPoint_regular theta) by exact Hge.
    rewrite getCycloidPoint_regular by (rewrite lobe_len; exact Hge).
    rewrite lobe_len, lobe_x0, lobe_y0, lobe_dxdt, lobe_dydt.
    unfold rotate. cbn [x y]. fold cd sd.
    f_equal; field; exact HL0.
Qed.
End Lobes.

(** X3.  The profile has [Zp - 1] equal lobes: advancing the parameter by
    [2 pi / (Zp - 1)] turns the profile point about the origin by that same
    angle, for every [theta] and all numbers [R], [rp], [e], whenever
    [Zp <> 1]. *)
Theorem profile_lobe_symmetry (theta R Zp rp e : Number) :
  Zp - 1 <> 0 ->
  getCycloidPoint (theta + 2 * PI / (Zp - 1)) R Zp rp e =
  rotate (2 * PI / (Zp - 1)) (getCycloidPoint theta R Zp rp e).
Proof. intros H. apply lobe_point. exact H. Qed.

Lemma profile_lobe_symmetry_witness :
  12 - 1 <> 0 /\
  getCycloidPoint (1 + 2 * PI / (12 - 1)) 80 12 5 4 =
  rotate (2 * PI / (12 - 1)) (getCycloidPoint 1 80 12 5 4).
Proof.
  assert (H : 12 - 1 <> 0) by lra.
  split; [exact H |].
  exact (profile_lobe_symmetry 1 80 12 5 4 H).
Defined.

(** ** The guard and the warning *)

(** The tangent is never shorter than the gap between [R] and [e * Zp]. *)
Lemma len_lower_bound (theta R Zp e : Number) :
  0 <= R * (e * Zp) -> Rabs (R - e * Zp) <= len theta R Zp e.
Proof.
  intros Hpos. rewrite <- sqrt_Rsqr_abs. unfold len.
  apply sqrt_le_1_alt. unfold Rsqr, dxdt, dydt.
  generalize (sin2_cos2_sum theta) (sin2_cos2_sum (Zp * theta)).
  generalize (cos theta) (sin theta) (cos (Zp * theta)) (sin (Zp * theta)).
  intros c s C S H1 H2.
  assert (Hsq : (c * C + s * S) * (c * C + s * S) +
                (c * S - s * C) * (c * S - s * C) = 1).
  { replace ((c * C + s * S) * (c * C + s * S) +
             (c * S - s * C) * (c * S - s * C))
      with ((s * s + c * c) * (S * S + C * C)) by ring.
    rewrite H1, H2. ring. }
  assert (Hu : c * C + s * S <= 1).
  { generalize (Rle_0_sqr (c * S - s * C)). unfold Rsqr. nra. }
  assert (Hmono : R * (e * Zp) * (c * C + s * S) <= R * (e * Zp) * 1)
    by (apply Rmult_le_compat_l; assumption).
  replace ((- R * s + e * Zp * S) * (- R * s + e * Zp * S) +
           (R * c - e * Zp * C) * (R * c - e * Zp * C))
    with (R * R * (s * s + c * c) + e * Zp * (e * Zp) * (S * S + C * C)
          - 2 * (R * (e * Zp) * (c * C + s * S))) by ring.
  rewrite H1, H2. nra.
Qed.

(** X4.  For valid parameters with [R >= 0.00005], when [updateParams] shows
    no warning the guard of [getCycloidPoint] fires at no [theta]: the
    profile is the offset curve everywhere, and the offset direction points
    to the side of the origin everywhere. *)
Theorem no_warning_no_cusp (p : Params.t) (s : State) (theta : Number) :
  valid p ->
  1 / 20000 <= Params.R p ->
  undercutWarning (snd (updateParams p s)) = false ->
  let R := Params.R p in
  let Zp := IZR (Params.Zp p) in
  let e := Params.e p in
  let L := len theta R Zp e in
  let nx := - dydt theta R Zp e / L in
  let ny := dxdt theta R Zp e / L in
  epsilon <= L /\
  getCycloidPoint theta R Zp (Params.rp p) e =
    mkPoint (x0 theta R Zp e + Params.rp p * nx)
            (y0 theta R Zp e + Params.rp p * ny) /\
  x0 theta R Zp e * nx + y0 theta R Zp e * ny < 0.
Proof.
  intros (HR & HZ & _ & He) HRmin Hw R Zp e L nx ny.
  assert (HZp : 2 <= Zp) by (apply IZR_le in HZ; exact HZ).
  assert (HK : e * Zp / R <= 98 / 100).
  { unfold undercutWarning in Hw. rewrite updateParams_warn in Hw.
    fold R Zp e in Hw.
    destruct (Rgt_dec (Params.rp p) _); [discriminate |].
    destruct (Rgt_dec (e * Zp / R) (98 / 100)) as [| Hn]; [discriminate |].
    lra. }
  assert (HeZ : e * Zp <= 98 / 100 * R).
  { apply (Rmult_le_compat_r R) in HK; [| unfold R; lra].
    replace (e * Zp / R * R) with (e * Zp) in HK by (field; unfold R; lra).
    exact HK. }
  assert (HeZ0 : 0 <= e * Zp) by (apply Rmult_le_pos; [exact He | lra]).
  assert (HL : epsilon <= L).
  { apply Rle_trans with (Rabs (R - e * Zp)).
    - rewrite Rabs_pos_eq by (unfold R in *; lra).
      unfold epsilon, R in *. lra.
    - apply len_lower_bound. apply Rmult_le_pos; [unfold R; lra | exact HeZ0]. }
  assert (HL0 : 0 < L) by (generalize epsilon_pos; lra).
  split; [exact HL |]. split.
  - apply getCycloidPoint_regular. exact HL.
  - apply normal_points_inward; try assumption; unfold R in *; lra.
Qed.

Lemma no_warning_no_cusp_witness :
  valid (Params.mk 80 12 5 4) /\ 1 / 20000 <= 80 /\
  undercutWarning (snd (updateParams (Params.mk 80 12 5 4) initialState)) = false /\
  epsilon <= len 1 80 12 4.
Proof.
  assert (HR : 1 / 20000 <= 80) by lra.
  assert (Hw : undercutWarning
                 (snd (updateParams (Params.mk 80 12 5 4) initialState)) = false).
  { unfold undercutWarning. rewrite updateParams_warn.
    cbn [Params.R Params.Zp Params.rp Params.e].
    destruct (Rgt_dec _ _) as [H1 | _]; [exfalso; lra |].
    destruct (Rgt_dec _ _) as [H2 | _]; [exfalso; lra | reflexivity]. }
  split; [exact valid_default |]. split; [exact HR |]. split; [exact Hw |].
  exact (proj1 (no_warning_no_cusp (Params.mk 80 12 5 4) initialState 1
                  valid_default HR Hw)).
Defined.

(** X5.  When [R] and [e * Zp] are closer than [1e-6] (eccentricity factor
    1, the cusp limit), the guard fires at [theta = 0] and the profile point
    there is [(R - e, 0)], whatever the pin radius. *)
Theorem cusp_at_zero (R Zp rp e : Number) :
  Rabs (R - e * Zp) < epsilon ->
  getCycloidPoint 0 R Zp rp e = mkPoint (R - e) 0.
Proof.
  intros H.
  rewrite getCycloidPoint_degenerate by (rewrite len_at_0; exact H).
  unfold x0, y0. rewrite Rmult_0_r, sin_0, cos_0. f_equal; ring.
Qed.

Lemma cusp_at_zero_witness :
  Rabs (24 - 2 * 12) < epsilon /\
  getCycloidPoint 0 24 12 5 2 = mkPoint (24 - 2) 0.
Proof.
  assert (H : Rabs (24 - 2 * 12) < epsilon).
  { replace (24 - 2 * 12) with 0 by ring. rewrite Rabs_R0. exact epsilon_pos. }
  split; [exact H |].
  exact (cusp_at_zero 24 12 5 2 H).
Defined.

(** ** The sampled outline and the pin ring *)

(** X6.  The outline that [draw] samples has 3601 points and is closed: its
    last point is its first. *)
Theorem profile_closed_polygon (p : Params.t) :
  length (profile p) = 3601%nat /\
  nth 3600 (profile p) (mkPoint 0 0) = nth 0 (profile p) (mkPoint 0 0).
Proof.
  split.
  - unfold profile. rewrite length_map, length_seq. reflexivity.
  - symmetry. apply profile_closed.
Qed.

Lemma rotate_pin_step (R Zp : Number) (i : nat) :
  Zp <> 0 ->
  pinCenter R Zp (S i) = rotate (2 * PI / Zp) (pinCenter R Zp i).
Proof.
  intros HZ. rewrite rotate_pinCenter. unfold pinCenter.
  rewrite S_INR.
  replace (2 * PI * (INR i + 1) / Zp) with (2 * PI * INR i / Zp + 2 * PI / Zp)
    by (field; exact HZ).
  reflexivity.
Qed.

(** X7.  For valid parameters [draw] places exactly [Zp] pins, every one
    centred at distance [R] from the origin, each the previous one turned by
    [2 pi / Zp]; a further step from the last pin would land on the first. *)
Theorem pins_evenly_spaced (p : Params.t) :
  valid p ->
  let R := Params.R p in
  let Zp := IZR (Params.Zp p) in
  Z.of_nat (length (pins p)) = Params.Zp p /\
  (forall c : Point, In c (pins p) -> norm c = R) /\
  (forall i : nat, pinCenter R Zp (S i) = rotate (2 * PI / Zp) (pinCenter R Zp i)) /\
  pinCenter R Zp (Z.to_nat (Params.Zp p)) = pinCenter R Zp 0.
Proof.
  intros (HR & HZ & _ & _) R Zp.
  assert (HZp : 2 <= Zp) by (apply IZR_le in HZ; exact HZ).
  split; [| split; [| split]].
  - unfold pins. rewrite length_map, length_seq. lia.
  - intros c Hc. unfold pins in Hc. apply in_map_iff in Hc.
    destruct Hc as (i & <- & _). unfold pinCenter.
    apply orbit_radius. unfold R in *. lra.
  - intros i. apply rotate_pin_step. lra.
  - unfold pinCenter. rewrite INR_IZR_INZ, Z2Nat.id by lia. fold Zp.
    replace (2 * PI * Zp / Zp) with (0 + 2 * INR 1 * PI)
      by (simpl INR; field; lra).
    rewrite cos_period, sin_period.
    simpl INR. replace (2 * PI * 0 / Zp) with 0 by (field; lra).
    reflexivity.
Qed.

Lemma pins_evenly_spaced_witness :
  valid (Params.mk 80 12 5 4) /\
  Z.of_nat (length (pins (Params.mk 80 12 5 4))) = 12%Z.
Proof.
  split; [exact valid_default |].
  exact (proj1 (pins_evenly_spaced (Params.mk 80 12 5 4) valid_default)).
Defined.

(** ** One input revolution *)

Lemma rotate_plus (a b : Number) (p : Point) :
  rotate (a + b) p = rotate a (rotate b p).
Proof.
  unfold rotate. cbn [x y]. rewrite cos_plus, sin_plus. f_equal; ring.
Qed.

Lemma lobe_point_back (theta R Zp rp e : Number) :
  Zp - 1 <> 0 ->
  rotate (- (2 * PI / (Zp - 1))) (getCycloidPoint theta R Zp rp e) =
  getCycloidPoint (theta - 2 * PI / (Zp - 1)) R Zp rp e.
Proof.
  intros HZ.
  replace theta with (theta - 2 * PI / (Zp - 1) + 2 * PI / (Zp - 1)) at 1 by ring.
  rewrite lobe_point by exact HZ.
  rewrite <- rotate_plus.
  replace (- (2 * PI / (Zp - 1)) + 2 * PI / (Zp - 1)) with 0 by ring.
  apply rotate_0.
Qed.

(** X8.  In mode ['STD'], one more revolution of the input shaft leaves the
    drawn disc outline where it was, moved on by one lobe: the point drawn
    for parameter [theta] lands where the point for
    [theta - 2 pi / (Zp - 1)] was drawn before. *)
Theorem one_lobe_per_input_turn (p : Params.t) (phi theta : Number) :
  (2 <= Params.Zp p)%Z ->
  let R := Params.R p in
  let Zp := IZR (Params.Zp p) in
  let rp := Params.rp p in
  let e := Params.e p in
  discWorld (placement (mkState p "STD" (phi + 2 * PI)))
            (getCycloidPoint theta R Zp rp e) =
  discWorld (placement (mkState p "STD" phi))
            (getCycloidPoint (theta - 2 * PI / (Zp - 1)) R Zp rp e).
Proof.
  intros HZ R Zp rp e.
  assert (HZp : 2 <= Zp) by (apply IZR_le in HZ; exact HZ).
  rewrite !placement_STD. unfold discWorld. cbn [discCenter discRotation].
  rewrite minus_IZR. fold Zp e.
  replace (phi + 2 * PI) with (phi + 2 * IZR 1 * PI) at 1 2 by ring.
  rewrite cos_period_Z, sin_period_Z.
  replace (- (phi + 2 * PI) / (Zp - 1))
    with (- phi / (Zp - 1) + - (2 * PI / (Zp - 1))) by (field; lra).
  rewrite rotate_plus, lobe_point_back by lra.
  reflexivity.
Qed.

Lemma one_lobe_per_input_turn_witness :
  (2 <= 12)%Z /\
  discWorld (placement (mkState (Params.mk 80 12 5 4) "STD" (1 + 2 * PI)))
            (getCycloidPoint 3 80 12 5 4) =
  discWorld (placement (mkState (Params.mk 80 12 5 4) "STD" 1))
            (getCycloidPoint (3 - 2 * PI / (12 - 1)) 80 12 5 4).
Proof.
  assert (H : (2 <= 12)%Z) by lia.
  split; [exact H |].
  exact (one_lobe_per_input_turn (Params.mk 80 12 5 4) 1 3 H).
Defined.

(** X9.  In every mode other than ['STD'], one more revolution of the input
    shaft leaves the disc where it was and moves the pin ring on by one pin:
    pin [k] lands where pin [k + 1] was drawn before. *)
Theorem one_pin_per_input_turn
  (p : Params.t) (mode : string) (phi : Number) (k : nat) :
  mode <> "STD"%string -> Params.Zp p <> 0%Z ->
  let R := Params.R p in
  let Zp := IZR (Params.Zp p) in
  let before := placement (mkState p mode phi) in
  let after := placement (mkState p mode (phi + 2 * PI)) in
  pinWorld after (pinCenter R Zp k) = pinWorld before (pinCenter R Zp (S k)) /\
  discCenter after = discCenter before /\
  discRotation after = discRotation before.
Proof.
  intros Hm HZ R Zp before after. subst before after.
  assert (HZp : Zp <> 0) by (apply not_0_IZR; exact HZ).
  rewrite !placement_not_STD by exact Hm.
  unfold pinWorld. cbn [pinGroupAngle discCenter discRotation]. fold Zp.
  split; [| split; [| reflexivity]].
  - rewrite rotate_pin_step by exact HZp. rewrite <- rotate_plus.
    f_equal. field. exact HZp.
  - replace (phi + 2 * PI) with (phi + 2 * IZR 1 * PI) by ring.
    rewrite cos_period_Z, sin_period_Z. reflexivity.
Qed.

Lemma one_pin_per_input_turn_witness :
  "RV"%string <> "STD"%string /\ 12%Z <> 0%Z /\
  pinWorld (placement (mkState (Params.mk 80 12 5 4) "RV" (1 + 2 * PI)))
           (pinCenter 80 12 3) =
  pinWorld (placement (mkState (Params.mk 80 12 5 4) "RV" 1))
           (pinCenter 80 12 4).
Proof.
  assert (H1 : "RV"%string <> "STD"%string) by discriminate.
  assert (H2 : 12%Z <> 0%Z) by discriminate.
  split; [exact H1 |]. split; [exact H2 |].
  exact (proj1 (one_pin_per_input_turn (Params.mk 80 12 5 4) "RV" 1 3 H1 H2)).
Defined.



(** ** Zoom and pan *)

Lemma onWheel_scale_bounds (ev : WheelEvent) (v : View.t) :
  5 / 10 <= View.scale (onWheel ev v) <= 20.
Proof.
  unfold onWheel. cbn [View.scale].
  set (a := View.scale v * (1 + - deltaY ev * (1 / 1000))).
  unfold Rmin, Rmax.
  destruct (Rle_dec (5 / 10) a); destruct (Rle_dec _ 20); lra.
Qed.

(** X11.  Whatever the wheel event and whatever the view before it, the
    zoom factor after a wheel event lies between [0.5] and [20]. *)
Theorem wheel_clamps_scale (ev : WheelEvent) (v : View.t) :
  5 / 10 <= View.scale (onWheel ev v) <= 20.
Proof. apply onWheel_scale_bounds. Qed.

(** X12.  A wheel event zooms about the pointer: on screen, the offset of
    every drawn point from the pointer is multiplied by the ratio of the new
    zoom factor to the old one; so the point under the pointer stays under
    it. *)
Theorem wheel_zooms_about_pointer (ev : WheelEvent) (v : View.t) (P : Point) :
  View.scale v <> 0 ->
  let v' := onWheel ev v in
  let r := View.scale v' / View.scale v in
  x (toScreen v' P) - offsetX ev = r * (x (toScreen v P) - offsetX ev) /\
  y (toScreen v' P) - offsetY ev = r * (y (toScreen v P) - offsetY ev) /\
  (toScreen v P = mkPoint (offsetX ev) (offsetY ev) ->
   toScreen v' P = mkPoint (offsetX ev) (offsetY ev)).
Proof.
  intros Hs v' r.
  assert (Hx : x (toScreen v' P) - offsetX ev = r * (x (toScreen v P) - offsetX ev)).
  { subst r v'. unfold toScreen, onWheel. cbn [x y View.x View.y View.scale].
    field. exact Hs. }
  assert (Hy : y (toScreen v' P) - offsetY ev = r * (y (toScreen v P) - offsetY ev)).
  { subst r v'. unfold toScreen, onWheel. cbn [x y View.x View.y View.scale].
    field. exact Hs. }
  split; [exact Hx |]. split; [exact Hy |].
  intros HP. rewrite HP in Hx, Hy. cbn [x y] in Hx, Hy.
  destruct (toScreen v' P) as [sx sy]. cbn [x y] in Hx, Hy.
  f_equal; lra.
Qed.

Lemma wheel_zooms_about_pointer_witness :
  View.scale initialView <> 0 /\
  x (toScreen (onWheel (mkWheel 100 10 20) initialView) (mkPoint 1 2)) - 10 =
  View.scale (onWheel (mkWheel 100 10 20) initialView) / View.scale initialView *
  (x (toScreen initialView (mkPoint 1 2)) - 10).
Proof.
  assert (H : View.scale initialView <> 0) by (cbn; lra).
  split; [exact H |].
  exact (proj1 (wheel_zooms_about_pointer (mkWheel 100 10 20) initialView
                  (mkPoint 1 2) H)).
Defined.

Lemma last_nonempty_default {A : Type} (l : list A) (a d d' : A) :
  last (a :: l) d = last (a :: l) d'.
Proof.
  revert a. induction l as [| b l IH]; intros a; [reflexivity |].
  change (last (a :: b :: l) d) with (last (b :: l) d).
  change (last (a :: b :: l) d') with (last (b :: l) d').
  apply IH.
Qed.

(** The moves of a drag, oldest first. *)
Lemma drag_invariant (moves : list MouseEvent) (v : View.t) :
  View.isDragging v = true ->
  let v' := fold_left (fun acc m => onMouseMove m acc) moves v in
  let final := last moves (mkMouse (View.lastX v) (View.lastY v)) in
  View.isDragging v' = true /\
  View.scale v' = View.scale v /\
  View.x v' = View.x v + (clientX final - View.lastX v) /\
  View.y v' = View.y v + (clientY final - View.lastY v) /\
  View.lastX v' = clientX final /\
  View.lastY v' = clientY final.
Proof.
  revert v. induction moves as [| m moves IH]; intros v Hd.
  - cbn. repeat split; try assumption; ring.
  - cbn [fold_left].
    assert (E : onMouseMove m v =
                View.mk (View.scale v)
                        (View.x v + (clientX m - View.lastX v))
                        (View.y v + (clientY m - View.lastY v))
                        true (clientX m) (clientY m))
      by (unfold onMouseMove; rewrite Hd; reflexivity).
    pose proof (f_equal View.scale E) as Es.
    pose proof (f_equal View.x E) as Ex.
    pose proof (f_equal View.y E) as Ey.
    pose proof (f_equal View.isDragging E) as Ed.
    pose proof (f_equal View.lastX E) as ElX.
    pose proof (f_equal View.lastY E) as ElY.
    cbn [View.scale View.x View.y View.isDragging View.lastX View.lastY]
      in Es, Ex, Ey, Ed, ElX, ElY.
    clear E. set (w := onMouseMove m v) in *.
    specialize (IH w Ed). cbv zeta in IH |- *.
    assert (Hlast :
      last (m :: moves) (mkMouse (View.lastX v) (View.lastY v)) =
      last moves (mkMouse (View.lastX w) (View.lastY w))).
    { rewrite ElX, ElY.
      destruct moves as [| m' moves']; [destruct m; reflexivity |].
      change (last (m :: m' :: moves') (mkMouse (View.lastX v) (View.lastY v)))
        with (last (m' :: moves') (mkMouse (View.lastX v) (View.lastY v))).
      apply last_nonempty_default. }
    rewrite Hlast.
    destruct IH as (I1 & I2 & I3 & I4 & I5 & I6).
    rewrite I2, I3, I4, Es, Ex, Ey.
    repeat split; try assumption.
    + rewrite ElX at 2. ring.
    + rewrite ElY at 2. ring.
Qed.

(** X13.  Between a mouse-down and the moves that follow it, the view is
    panned by exactly the displacement of the pointer since the mouse-down,
    however the moves are cut up, and the zoom factor is untouched. *)
Theorem drag_follows_pointer
  (down : MouseEvent) (moves : list MouseEvent) (v : View.t) :
  let v' := fold_left (fun acc m => onMouseMove m acc) moves (onMouseDown down v) in
  let final := last moves down in
  View.x v' = View.x v + (clientX final - clientX down) /\
  View.y v' = View.y v + (clientY final - clientY down) /\
  View.scale v' = View.scale v.
Proof.
  pose proof (drag_invariant moves (onMouseDown down v) eq_refl) as H.
  cbv zeta in H |- *.
  cbn [onMouseDown View.scale View.x View.y View.lastX View.lastY] in H.
  replace (mkMouse (clientX down) (clientY down)) with down in H
    by (destruct down; reflexivity).
  destruct H as (_ & Hs & Hx & Hy & _ & _).
  repeat split; assumption.
Qed.

Lemma idle_moves (moves : list MouseEvent) (v : View.t) :
  View.isDragging v = false ->
  fold_left (fun acc m => onMouseMove m acc) moves v = v.
Proof.
  intros Hd. induction moves as [| m moves IH]; [reflexivity |].
  cbn [fold_left]. unfold onMouseMove at 2. rewrite Hd. exact IH.
Qed.

(** X14.  After a mouse-up, mouse moves change nothing in the view, however
    many there are. *)
Theorem released_pointer_does_not_pan (moves : list MouseEvent) (v : View.t) :
  fold_left (fun acc m => onMouseMove m acc) moves (onMouseUp v) = onMouseUp v.
Proof. apply idle_moves. reflexivity. Qed.

(** ** The page under any sequence of events *)

Lemma drawCall_iter_view (n : nat) (a : App) :
  view (Nat.iter n drawCall a) = view a /\
  canvas (Nat.iter n drawCall a) = canvas a /\
  queued (Nat.iter n drawCall a) = (n + queued a)%nat /\
  params (globals (Nat.iter n drawCall a)) = params (globals a) /\
  kinematics (globals (Nat.iter n drawCall a)) = kinematics (globals a) /\
  rotationAngle (globals (Nat.iter n drawCall a)) =
    rotationAngle (globals a) + INR n * (2 / 100).
Proof.
  induction n as [| n IH].
  - cbn. repeat split; try reflexivity. ring.
  - destruct IH as (I1 & I2 & I3 & I4 & I5 & I6).
    rewrite S_INR, !Nat.iter_succ.
    set (b := Nat.iter n drawCall a) in *.
    unfold drawCall.
    cbn [view canvas queued globals draw snd params kinematics rotationAngle].
    repeat split; try assumption.
    + rewrite I3. reflexivity.
    + rewrite I6. ring.
Qed.

(** X15.  An animation frame runs every queued [draw] once: the input angle
    advances by [0.02] per queued callback, the same number of callbacks is
    queued again, and parameters, mode, view and canvas are untouched. *)
Theorem frame_advances_angle (a : App) :
  rotationAngle (globals (animationFrame a)) =
    rotationAngle (globals a) + INR (queued a) * (2 / 100) /\
  queued (animationFrame a) = queued a /\
  params (globals (animationFrame a)) = params (globals a) /\
  kinematics (globals (animationFrame a)) = kinematics (globals a) /\
  view (animationFrame a) = view a /\
  canvas (animationFrame a) = canvas a.
Proof.
  unfold animationFrame.
  destruct (drawCall_iter_view (queued a)
              (mkApp (globals a) (view a) (canvas a) 0))
    as (I1 & I2 & I3 & I4 & I5 & I6).
  cbn [view canvas queued globals] in *.
  repeat split; try assumption. lia.
Qed.

Lemma handle_queued (ev : Event) (a : App) :
  queued (handle ev a) = ((if isResize ev then 1 else 0) + queued a)%nat.
Proof.
  destruct ev; try reflexivity.
  cbn [handle isResize]. unfold animationFrame.
  rewrite (proj1 (proj2 (proj2 (drawCall_iter_view (queued a) (mkApp (globals a) (view a) (canvas a) 0))))).
  cbn [queued]. lia.
Qed.

Lemma resizes_cons (ev : Event) (evs : list Event) :
  resizes (ev :: evs) = ((if isResize ev then 1 else 0) + resizes evs)%nat.
Proof. unfold resizes. cbn [filter]. destruct (isResize ev); reflexivity. Qed.

Lemma run_queued (evs : list Event) (a : App) :
  queued (run evs a) = (resizes evs + queued a)%nat.
Proof.
  revert a. induction evs as [| ev evs IH]; intros a; [reflexivity |].
  unfold run in *. cbn [fold_left]. rewrite IH, handle_queued, resizes_cons. lia.
Qed.

(** X16.  Every [resize] starts one more [draw] loop and none ever ends:
    after the start-up calls and any sequence of events, the number of
    queued [draw] callbacks is one plus the number of resize events, and the
    next animation frame advances the input angle by [0.02] times that
    number. *)
Theorem resize_adds_draw_loop
  (clientWidth clientHeight : Number) (inputs : Params.t) (evs : list Event) :
  let a := run evs (start clientWidth clientHeight inputs) in
  queued a = S (resizes evs) /\
  rotationAngle (globals (animationFrame a)) =
    rotationAngle (globals a) + INR (S (resizes evs)) * (2 / 100).
Proof.
  intros a.
  assert (Hq : queued a = S (resizes evs)).
  { subst a. rewrite run_queued. cbn [start withView withGlobals resize drawCall queued].
    lia. }
  split; [exact Hq |].
  unfold animationFrame.
  rewrite (proj2 (proj2 (proj2 (proj2 (proj2
             (drawCall_iter_view (queued a)
                (mkApp (globals a) (view a) (canvas a) 0))))))).
  cbn [globals]. rewrite Hq. reflexivity.
Qed.

Lemma handle_scale (ev : Event) (a : App) :
  5 / 10 <= View.scale (view a) <= 20 ->
  5 / 10 <= View.scale (view (handle ev a)) <= 20.
Proof.
  intros H.
  destruct ev as [w h | e | e | e | | | inputs | mode inputs |];
    cbn [handle withView withGlobals view].
  - unfold resize, drawCall. cbn [view View.scale]. exact H.
  - apply onWheel_scale_bounds.
  - exact H.
  - unfold onMouseMove. destruct (View.isDragging (view a)); exact H.
  - exact H.
  - cbn [resetView View.scale]. lra.
  - exact H.
  - exact H.
  - unfold animationFrame.
    rewrite (proj1 (drawCall_iter_view (queued a)
                      (mkApp (globals a) (view a) (canvas a) 0))).
    exact H.
Qed.

Lemma run_scale (evs : list Event) (a : App) :
  5 / 10 <= View.scale (view a) <= 20 ->
  5 / 10 <= View.scale (view (run evs a)) <= 20.
Proof.
  revert a. induction evs as [| ev evs IH]; intros a H; [exact H |].
  unfold run in *. cbn [fold_left]. apply IH, handle_scale, H.
Qed.

(** X17.  After the start-up calls and any sequence of resize, wheel,
    mouse, reset, input, mode and frame events, the zoom factor lies
    between [0.5] and [20]; in particular it is never zero or negative. *)
Theorem view_scale_invariant
  (clientWidth clientHeight : Number) (inputs : Params.t) (evs : list Event) :
  5 / 10 <= View.scale (view (run evs (start clientWidth clientHeight inputs))) <= 20.
Proof.
  apply run_scale.
  cbn [start withView withGlobals view resetView View.scale]. lra.
Qed.

(** ** Scale bar *)

Lemma exp_le (a b : Number) : a <= b -> exp a <= exp b.
Proof.
  intros [Hlt | ->]; [left; apply exp_increasing; exact Hlt | right; reflexivity].
Qed.

Lemma ln_10_pos : 0 < ln 10.
Proof. rewrite <- ln_1. apply ln_increasing; lra. Qed.

(** [magnitude] is the power of ten at or just below [rawMM]. *)
Lemma magnitude_brackets (v : View.t) :
  0 < View.scale v ->
  0 < magnitude v /\ magnitude v <= rawMM v < 10 * magnitude v.
Proof.
  intros Hs.
  assert (Hraw : 0 < rawMM v).
  { unfold rawMM. apply Rmult_lt_0_compat; [lra |].
    unfold Rdiv. rewrite Rmult_1_l. apply Rinv_0_lt_compat. exact Hs. }
  pose proof ln_10_pos as H10.
  destruct (base_Int_part (log10 (rawMM v))) as [Hlo Hhi].
  unfold magnitude, floor, Rpower.
  set (n := IZR (Int_part (log10 (rawMM v)))) in *.
  assert (Hlog : log10 (rawMM v) * ln 10 = ln (rawMM v))
    by (unfold log10; field; lra).
  assert (Hr : exp (ln (rawMM v)) = rawMM v) by (apply exp_ln; exact Hraw).
  assert (Hup : 10 * exp (n * ln 10) = exp ((n + 1) * ln 10)).
  { replace ((n + 1) * ln 10) with (ln 10 + n * ln 10) by ring.
    rewrite exp_plus, exp_ln by lra. reflexivity. }
  split; [apply exp_pos |]. split.
  - rewrite <- Hr. apply exp_le. rewrite <- Hlog.
    apply Rmult_le_compat_r; lra.
  - rewrite Hup, <- Hr. apply exp_increasing. rewrite <- Hlog.
    apply Rmult_lt_compat_r; lra.
Qed.

Lemma scale_bar_bounds (v : View.t) :
  0 < View.scale v ->
  let b := updateScaleBar v in
  80 <= scaleLine b < 200 /\
  rawMM v <= scaleText b /\
  (scaleText b = 2 * magnitude v \/ scaleText b = 5 * magnitude v \/
   scaleText b = 10 * magnitude v).
Proof.
  intros Hs b. subst b. unfold updateScaleBar.
  fold (rawMM v). fold (magnitude v).
  destruct (magnitude_brackets v Hs) as (Hm & Hlo & Hhi).
  assert (Hprod : View.scale v * rawMM v = 80)
    by (unfold rawMM; field; lra).
  set (s := View.scale v) in *. set (raw := rawMM v) in *.
  set (m := magnitude v) in *.
  assert (Hres : forall c : Number, raw / m > c <-> raw > c * m).
  { intros c. split; intros H.
    - apply (Rmult_lt_compat_r m) in H; [| exact Hm].
      replace (raw / m * m) with raw in H by (field; lra). lra.
    - apply (Rmult_lt_reg_r m); [exact Hm |].
      replace (raw / m * m) with raw by (field; lra). lra. }
  destruct (Rgt_dec (raw / m) 5) as [H5 | H5]; [| destruct (Rgt_dec (raw / m) 2) as [H2 | H2]];
    cbn [scaleLine scaleText].
  - apply Hres in H5.
    assert (H1 : s * raw <= s * (10 * m)) by (apply Rmult_le_compat_l; lra).
    assert (H3 : s * (5 * m) < s * raw) by (apply Rmult_lt_compat_l; lra).
    repeat split; lra.
  - apply Hres in H2.
    assert (H5' : raw <= 5 * m).
    { destruct (Rle_lt_dec raw (5 * m)) as [Hle | Hgt]; [exact Hle |].
      exfalso. apply H5. apply Hres. lra. }
    assert (H1 : s * raw <= s * (5 * m)) by (apply Rmult_le_compat_l; lra).
    assert (H3 : s * (2 * m) < s * raw) by (apply Rmult_lt_compat_l; lra).
    repeat split; lra.
  - assert (H2' : raw <= 2 * m).
    { destruct (Rle_lt_dec raw (2 * m)) as [Hle | Hgt]; [exact Hle |].
      exfalso. apply H2. apply Hres. lra. }
    assert (H1 : s * raw <= s * (2 * m)) by (apply Rmult_le_compat_l; lra).
    assert (H3 : s * m <= s * raw) by (apply Rmult_le_compat_l; lra).
    repeat split; lra.
Qed.

(** X18.  For every positive zoom factor the scale bar shows 2, 5 or 10
    times a power of ten, at least the length that 80 pixels stand for, and
    the bar is drawn at least 80 and less than 200 pixels wide. *)
Theorem scale_bar_width (v : View.t) :
  0 < View.scale v ->
  let b := updateScaleBar v in
  80 <= scaleLine b < 200 /\
  rawMM v <= scaleText b /\
  exists n : Z,
    scaleText b = 2 * Rpower 10 (IZR n) \/ scaleText b = 5 * Rpower 10 (IZR n) \/
    scaleText b = 10 * Rpower 10 (IZR n).
Proof.
  intros Hs b.
  destruct (scale_bar_bounds v Hs) as (H1 & H2 & H3).
  split; [exact H1 |]. split; [exact H2 |].
  exists (Int_part (log10 (rawMM v))). exact H3.
Qed.

Lemma scale_bar_width_witness :
  0 < View.scale initialView /\
  80 <= scaleLine (updateScaleBar initialView) < 200.
Proof.
  assert (H : 0 < View.scale initialView) by (cbn; lra).
  split; [exact H |].
  exact (proj1 (scale_bar_width initialView H)).
Defined.

(** X19.  In every state the page can reach, the scale bar is drawn at
    least 80 and less than 200 pixels wide. *)
Theorem scale_bar_width_reachable
  (clientWidth clientHeight : Number) (inputs : Params.t) (evs : list Event) :
  let a := run evs (start clientWidth clientHeight inputs) in
  80 <= scaleLine (updateScaleBar (view a)) < 200.
Proof.
  intros a.
  assert (Hs : 5 / 10 <= View.scale (view a) <= 20).
  { subst a. apply run_scale.
    cbn [start withView withGlobals view resetView View.scale]. lra. }
  apply (scale_bar_bounds (view a)). lra.
Qed.

(** ** Read-outs against the motion *)

Lemma rotate_full_turn (a : Number) (k : Z) (q : Point) :
  rotate (a + 2 * IZR k * PI) q = rotate a q.
Proof. unfold rotate. rewrite cos_period_Z, sin_period_Z. reflexivity. Qed.

(** X20.  The ratio that [updateParams] displays is the ratio of the drawn
    motion.  In mode ['STD'], [Zp - 1] revolutions of the input turn the
    disc by exactly one full turn against the input and bring back the same
    picture; in mode ['RV'], [Zp] revolutions of the input turn the pin ring
    by exactly one full turn with the input and bring back the same
    picture. *)
Theorem output_turn_matches_ratio (p : Params.t) (phi : Number) (q : Point) :
  (2 <= Params.Zp p)%Z ->
  let Zp := IZR (Params.Zp p) in
  let std := placement (mkState p "STD" phi) in
  let std' := placement (mkState p "STD" (phi + 2 * PI * (Zp - 1))) in
  let rv := placement (mkState p "RV" phi) in
  let rv' := placement (mkState p "RV" (phi + 2 * PI * Zp)) in
  (discRotation std' = discRotation std - 2 * PI /\
   discWorld std' q = discWorld std q /\ pinWorld std' q = pinWorld std q) /\
  (pinGroupAngle rv' = pinGroupAngle rv + 2 * PI /\
   pinWorld rv' q = pinWorld rv q /\ discWorld rv' q = discWorld rv q).
Proof.
  intros HZ Zp std std' rv rv'. subst std std' rv rv'.
  assert (HZp : 2 <= Zp) by (apply IZR_le in HZ; exact HZ).
  rewrite !placement_STD, !placement_not_STD by discriminate.
  unfold discWorld, pinWorld. cbn [discCenter discRotation pinGroupAngle].
  rewrite minus_IZR. fold Zp.
  replace (phi + 2 * PI * (Zp - 1))
    with (phi + 2 * IZR (Params.Zp p - 1) * PI)
    by (rewrite minus_IZR; fold Zp; ring).
  replace (phi + 2 * PI * Zp) with (phi + 2 * IZR (Params.Zp p) * PI)
    by (fold Zp; ring).
  rewrite !cos_period_Z, !sin_period_Z.
  rewrite minus_IZR. fold Zp.
  split; split.
  - field. lra.
  - split; [| reflexivity].
    replace (- (phi + 2 * (Zp - 1) * PI) / (Zp - 1))
      with (- phi / (Zp - 1) + 2 * IZR (-1) * PI) by (field; lra).
    rewrite rotate_full_turn. reflexivity.
  - field. lra.
  - split; [| reflexivity].
    replace ((phi + 2 * Zp * PI) / Zp)
      with (phi / Zp + 2 * IZR 1 * PI) by (field; lra).
    rewrite rotate_full_turn. reflexivity.
Qed.

Lemma output_turn_matches_ratio_witness :
  (2 <= 12)%Z /\
  discRotation (placement (mkState (Params.mk 80 12 5 4) "STD" (1 + 2 * PI * (12 - 1)))) =
  discRotation (placement (mkState (Params.mk 80 12 5 4) "STD" 1)) - 2 * PI.
Proof.
  assert (H : (2 <= 12)%Z) by lia.
  split; [exact H |].
  exact (proj1 (proj1 (output_turn_matches_ratio (Params.mk 80 12 5 4) 1
                         (mkPoint 0 0) H))).
Defined.

Lemma undercutWarning_iff (inputs : Params.t) (s : State) :
  undercutWarning (snd (updateParams inputs s)) = true <->
  Params.rp inputs > Params.R inputs / IZR (Params.Zp inputs) * (11 / 10) \/
  Params.e inputs * IZR (Params.Zp inputs) / Params.R inputs > 98 / 100.
Proof.
  unfold undercutWarning. rewrite updateParams_warn.
  destruct (Rgt_dec _ _) as [H1 | H1].
  - split; [intros _; left; exact H1 | reflexivity].
  - destruct (Rgt_dec _ _) as [H2 | H2].
    + split; [intros _; right; exact H2 | reflexivity].
    + split; [discriminate | intros [H | H]; contradiction].
Qed.

(** X21.  With [R] and [Zp] kept, for [R > 0] and [Zp > 0], a larger pin
    radius or a larger eccentricity never clears the warning, in whatever
    mode. *)
Theorem warning_monotone (p p' : Params.t) (s s' : State) :
  0 < Params.R p -> (0 < Params.Zp p)%Z ->
  Params.R p' = Params.R p -> Params.Zp p' = Params.Zp p ->
  Params.rp p <= Params.rp p' -> Params.e p <= Params.e p' ->
  undercutWarning (snd (updateParams p s)) = true ->
  undercutWarning (snd (updateParams p' s')) = true.
Proof.
  intros HR HZ ER EZ Hrp He Hw.
  assert (HZp : 0 < IZR (Params.Zp p)) by (apply IZR_lt in HZ; exact HZ).
  apply undercutWarning_iff. apply undercutWarning_iff in Hw.
  rewrite ER, EZ.
  destruct Hw as [H | H]; [left; lra | right].
  apply Rlt_gt. apply Rlt_le_trans with
    (Params.e p * IZR (Params.Zp p) / Params.R p); [lra |].
  unfold Rdiv. apply Rmult_le_compat_r.
  - left. apply Rinv_0_lt_compat. exact HR.
  - apply Rmult_le_compat_r; lra.
Qed.

Lemma warning_monotone_witness :
  0 < 80 /\ (0 < 12)%Z /\ 5 <= 5 /\ 20 <= 30 /\
  undercutWarning (snd (updateParams (Params.mk 80 12 5 20) initialState)) = true /\
  undercutWarning (snd (updateParams (Params.mk 80 12 5 30) initialState)) = true.
Proof.
  assert (H1 : 0 < 80) by lra.
  assert (H2 : (0 < 12)%Z) by lia.
  assert (H3 : 5 <= 5) by lra.
  assert (H4 : 20 <= 30) by lra.
  assert (Hw : undercutWarning
                 (snd (updateParams (Params.mk 80 12 5 20) initialState)) = true).
  { apply undercutWarning_iff. right.
    cbn [Params.R Params.Zp Params.rp Params.e]. lra. }
  repeat split; try assumption.
  exact (warning_monotone (Params.mk 80 12 5 20) (Params.mk 80 12 5 30)
           initialState initialState H1 H2 eq_refl eq_refl H3 H4 Hw).
Defined.
